(** * gocrypto: forward-secret sessions, challenge/response and password hashing

    A shallow embedding of three Go packages of the repository:
    - [forwardsec]: identity keys, session keys and the per-message
      encryption protocol built on a key-agreement primitive, a signing
      primitive and an authenticated cipher;
    - [hap]: the hash-based challenge/response helper;
    - [hash]: password hashing with a salt and constant-time comparison.

    Go values are modelled as follows.  A [[]byte] is a [list byte] whose
    capacity equals its length, a Go [string] is its sequence of bytes, an
    [int] is an integer of [Z] (every count below is bounded by a slice
    length, so the 64-bit range is never left), a pointer that may be [nil]
    is an [option], and an [error] is its message.  A call either returns a
    value, returns a non-nil error, or panics. *)

From Stdlib Require Import ZArith List Lia Bool String.
From Stdlib Require Import Strings.Byte.
From Stdlib Require Import DecimalN.
Import ListNotations.

Local Open Scope Z_scope.

(** ** Go runtime model *)

Module golang.

Definition bytes := list byte.

Definition error := string.

(** The three ways a Go call can end. *)
Inductive outcome (A : Type) : Type :=
| Ok (a : A)
| Err (e : error)
| Panic.

Arguments Ok {A} a.
Arguments Err {A} e.
Arguments Panic {A}.

Definition obind {A B} (r : outcome A) (k : A -> outcome B) : outcome B :=
  match r with
  | Ok a => k a
  | Err e => Err e
  | Panic => Panic
  end.

(** [len(s)] *)
Definition len {A} (s : list A) : Z := Z.of_nat (List.length s).

(** [s[i]]: panics when the index is out of range. *)
Definition index {A} (s : list A) (i : Z) : outcome A :=
  if (0 <=? i) && (i <? len s) then
    match nth_error s (Z.to_nat i) with
    | Some x => Ok x
    | None => Panic
    end
  else Panic.

(** [s[:n]]: panics when [n] exceeds the capacity. *)
Definition slice_to {A} (s : list A) (n : Z) : outcome (list A) :=
  if (0 <=? n) && (n <=? len s) then Ok (firstn (Z.to_nat n) s) else Panic.

(** [s[n:]]: panics when [n] exceeds the length. *)
Definition slice_from {A} (s : list A) (n : Z) : outcome (list A) :=
  if (0 <=? n) && (n <=? len s) then Ok (skipn (Z.to_nat n) s) else Panic.

(** [make([]byte, n)]: [n] zero bytes; panics when [n] is negative. *)
Definition make_bytes (n : Z) : outcome (list byte) :=
  if n <? 0 then Panic else Ok (repeat x00 (Z.to_nat n)).

(** What is in the slice [buf] after a callee that was handed it wrote
    [data] from its start: the callee cannot change the caller's length. *)
Definition overwrite (data buf : list byte) : list byte :=
  firstn (List.length buf) (data ++ skipn (List.length data) buf).

Definition byte_val (x : byte) : Z := Z.of_N (Byte.to_N x).

End golang.

Import golang.

Declare Scope outcome_scope.
Delimit Scope outcome_scope with outcome.
Notation "x <- c ;; k" := (obind c (fun x => k))
  (at level 61, c at next level, right associativity) : outcome_scope.

(** ** crypto/subtle *)

Module subtle.

(** [ConstantTimeByteEq(x, y uint8) int] of the Go standard library:
    [int((uint32(x^y) - 1) >> 31)], with the 32-bit wrap-around of the
    subtraction written out. *)
Definition ConstantTimeByteEq (x y : byte) : Z :=
  Z.shiftr ((Z.lxor (byte_val x) (byte_val y) - 1) mod 2 ^ 32) 31.

(** The comparison loop both packages use,
    [for i := 0; i < size; i++ { matched += ConstantTimeByteEq(a[i], b[i]) }],
    run for the [n] iterations that remain from index [i]. *)
Fixpoint count_equal (a b : bytes) (n : nat) (i matched : Z) : outcome Z :=
  match n with
  | O => Ok matched
  | S n' =>
      (x <- index a i ;;
       y <- index b i ;;
       count_equal a b n' (i + 1) (matched + ConstantTimeByteEq x y))%outcome
  end.

End subtle.

(** ** Package hap *)

Module hap.

Definition ResponseLength : Z := 128.

(** How a call that may end the process comes back: with a value, after
    [os.Exit(code)], or in a panic. *)
Inductive step (A : Type) : Type :=
| Continue (a : A)
| Exited (code : Z)
| Panicked.

Arguments Continue {A} a.
Arguments Exited {A} code.
Arguments Panicked {A}.

(** [math.MaxInt64] *)
Definition MaxInt64 : Z := 9223372036854775807.

(** The conversion to [int64] of a 64-bit pattern: two's complement. *)
Definition wrap_int64 (v : Z) : Z := (v + 2 ^ 63) mod 2 ^ 64 - 2 ^ 63.

(** [Int64] of [math/big]: the low 64 bits of the magnitude as an [int64],
    negated when the number is negative. *)
Definition big_Int64 (x : Z) : Z :=
  let v := wrap_int64 (Z.abs x mod 2 ^ 64) in
  if x <? 0 then wrap_int64 (- v) else v.

(** [uint64(v)] of an [int64]. *)
Definition to_uint64 (v : Z) : Z := v mod 2 ^ 64.

Fixpoint digits (d : Decimal.uint) : bytes :=
  match d with
  | Decimal.Nil => []
  | Decimal.D0 d => x30 :: digits d
  | Decimal.D1 d => x31 :: digits d
  | Decimal.D2 d => x32 :: digits d
  | Decimal.D3 d => x33 :: digits d
  | Decimal.D4 d => x34 :: digits d
  | Decimal.D5 d => x35 :: digits d
  | Decimal.D6 d => x36 :: digits d
  | Decimal.D7 d => x37 :: digits d
  | Decimal.D8 d => x38 :: digits d
  | Decimal.D9 d => x39 :: digits d
  end.

(** [fmt.Sprintf("%d", res)] for an unsigned [res]: its decimal numeral. *)
Definition Sprintf_d (res : Z) : bytes := digits (N.to_uint (Z.to_N res)).

Section Hap.

(** Keccak-512 of [code.google.com/p/go.crypto/sha3], a total function on
    byte strings. *)
Variable keccak512 : bytes -> bytes.

Definition hash (in_ : bytes) : bytes := keccak512 in_.

Definition Response (password challenge : bytes) : bytes :=
  let response := hash (password ++ challenge) in
  response.

Definition matchHash (hash1 hash2 : bytes) : outcome bool :=
  let size := len hash1 in
  let size := if size >? len hash2 then len hash2 else size in
  let matched := 0 in
  (matched <- subtle.count_equal hash1 hash2 (Z.to_nat size) 0 matched ;;
   let match_ := matched =? size in
   let sameSize := len hash1 =? len hash2 in
   Ok (match_ && sameSize))%outcome.

Definition Validate (password challenge response : bytes) : outcome bool :=
  let valid := Response password challenge in
  matchHash valid response.

(** The surroundings of the process: the state [St] of the randomness
    source, of standard output and of the network; [rand.Int] on
    [rand.Reader], [fmt.Println] of a message and an error text, and the
    [Read] and [Write] of a [net.Conn].  A read is given the length of the
    buffer and answers with the bytes it wrote into it, its count and its
    error. *)
Variable St : Type.
Variable Conn : Type.
Variable rand_Int : Z -> St -> outcome Z * St.
Variable fmt_Println : string -> error -> St -> St.
Variable conn_Read : Conn -> Z -> St -> (bytes * Z * option error) * St.
Variable conn_Write : Conn -> bytes -> St -> (Z * option error) * St.

(** [conn.Read(buf)]: the buffer after the call, the count and the error. *)
Definition Read (conn : Conn) (buf : bytes)
  : St -> (bytes * Z * option error) * St :=
  fun s =>
    let '((data, n, err), s') := conn_Read conn (len buf) s in
    ((overwrite data buf, n, err), s').

Definition generateChallenge : St -> step bytes * St :=
  fun s =>
    let max := MaxInt64 in
    let max := max * 2 in
    match rand_Int max s with
    | (Ok n, s1) =>
        let res := to_uint64 (big_Int64 n) in
        (Continue (Sprintf_d res), s1)
    | (Err e, s1) =>
        (Exited 1,
         fmt_Println "[!] failed to generate random number:"%string e s1)
    | (Panic, s1) => (Panicked, s1)
    end.

(** The result is the named result [err]; a bare [return] gives back what
    the last assignment left in it. *)
Definition Challenge (conn : Conn) (password : bytes)
  : St -> step (option error) * St :=
  fun s =>
    match generateChallenge s with
    | (Continue challenge, s1) =>
        let '((_, err), s2) := conn_Write conn challenge s1 in
        match err with
        | Some e => (Continue (Some e), s2)
        | None =>
            match make_bytes ResponseLength with
            | Ok response =>
                let '((response, n, err), s3) := Read conn response s2 in
                match err with
                | Some e => (Continue (Some e), s3)
                | None =>
                    match slice_to response n with
                    | Ok response =>
                        match Validate password challenge response with
                        | Ok true =>
                            let '(_, s4) := conn_Write conn [x6f; x6b] s3 in
                            (Continue err, s4)
                        | Ok false => (Continue err, s3)
                        | _ => (Panicked, s3)
                        end
                    | _ => (Panicked, s3)
                    end
                end
            | _ => (Panicked, s2)
            end
        end
    | (Exited code, s1) => (Exited code, s1)
    | (Panicked, s1) => (Panicked, s1)
    end.

Definition Authenticate (conn : Conn) (password : bytes)
  : St -> step (option error) * St :=
  fun s =>
    match make_bytes ResponseLength with
    | Ok challenge =>
        let '((challenge, n, err), s1) := Read conn challenge s in
        match err with
        | Some e => (Continue (Some e), s1)
        | None =>
            match slice_to challenge n with
            | Ok challenge =>
                let response := Response password challenge in
                let '((_, err), s2) := conn_Write conn response s1 in
                match err with
                | Some e => (Continue (Some e), s2)
                | None =>
                    match make_bytes 2 with
                    | Ok ok =>
                        let '((_, _, err), s3) := Read conn ok s2 in
                        (Continue err, s3)
                    | _ => (Panicked, s2)
                    end
                end
            | _ => (Panicked, s1)
            end
        end
    | _ => (Panicked, s)
    end.

End Hap.

End hap.

(** ** Package hash *)

Module hash.

(** The package-level variables, which a caller may reassign. *)
Record Vars : Type := {
  IterationCount : Z;
  KeySize : Z;
  SaltLength : Z
}.

Definition initial_vars : Vars :=
  {| IterationCount := 16384; KeySize := 32; SaltLength := 128 |}.

Record PasswordKey : Type := {
  Salt : bytes;
  Key : bytes
}.

Section Hash.

(** [pbkdf2.Key(password, salt, iter, keyLen, h)] of go.crypto, with the
    package's [DefaultAlgo.New] as its hash constructor: a total function. *)
Variable HashAlgo : Type.
Variable DefaultAlgo_New : HashAlgo.
Variable pbkdf2_Key : bytes -> bytes -> Z -> Z -> HashAlgo -> bytes.

Variable vars : Vars.

Definition DeriveKeyWithSalt (password salt : bytes) : PasswordKey :=
  let key := pbkdf2_Key password salt (IterationCount vars)
               (KeySize vars) DefaultAlgo_New in
  {| Salt := salt; Key := key |}.

(** [pk] is a pointer: reading a field of [nil] panics. *)
Definition MatchPassword (password : bytes) (pk : option PasswordKey)
  : outcome bool :=
  match pk with
  | None => Panic
  | Some pk =>
      let matched := 0 in
      let new_key := DeriveKeyWithSalt password (Salt pk) in
      let size := len (Key new_key) in
      let size := if size >? len (Key pk) then len (Key pk) else size in
      (matched <- subtle.count_equal (Key new_key) (Key pk)
                    (Z.to_nat size) 0 matched ;;
       let passed := matched =? size in
       if negb (len (Key new_key) =? len (Key pk)) then Ok false
       else Ok passed)%outcome
  end.

(** [crypto/rand.Read], given the length of the buffer: the bytes it wrote
    into it, its count and its error, from the state [W] of the source. *)
Variable W : Type.
Variable rand_Read : Z -> W -> (bytes * Z * option error) * W.

Definition generateSalt (chars : Z) : W -> outcome bytes * W :=
  fun w =>
    match make_bytes chars with
    | Ok saltBytes =>
        let '((data, nRead, err), w') := rand_Read (len saltBytes) w in
        let saltBytes := overwrite data saltBytes in
        let salt :=
          match err with
          | Some _ => []
          | None => if nRead <? chars then [] else saltBytes
          end in
        (Ok salt, w')
    | Err e => (Err e, w)
    | Panic => (Panic, w)
    end.

Definition DeriveKey (password : bytes) : W -> outcome PasswordKey * W :=
  fun w =>
    match generateSalt (SaltLength vars) w with
    | (Ok salt, w') => (Ok (DeriveKeyWithSalt password salt), w')
    | (Err e, w') => (Err e, w')
    | (Panic, w') => (Panic, w')
    end.

End Hash.

End hash.

(** ** Package forwardsec *)

Module forwardsec.

Definition sharedKeyLen : Z := 48.

(** The record [asn1.Marshal] writes for a session's signed public value. *)
Record signedDHKey : Type := {
  Public : bytes;
  Signature : bytes
}.

(** The anonymous struct of [Encrypt] and [Decrypt]. *)
Record ephem : Type := {
  Pub : bytes;
  CT : bytes
}.

(** What [x509.ParsePKIXPublicKey] returns as an [interface{}]: a pointer
    to a key of one of the algorithms the parser knows. *)
Inductive pkix_key (R D E : Type) : Type :=
| pkix_rsa (k : R)
| pkix_dsa (k : D)
| pkix_ecdsa (k : E).

Arguments pkix_rsa {R D E} k.
Arguments pkix_dsa {R D E} k.
Arguments pkix_ecdsa {R D E} k.

(** [IdentityKey]: the long-term identity key.  A value of this type is one
    [NewIdentityKey] built, so its [key] pointer is set. *)
Record IdentityKey_of (Prv : Type) : Type := {
  id_key : Prv
}.

Arguments id_key {Prv} _.

(** [SessionKey]: [key] is set by [NewSessionKey], the only constructor;
    [peer] is nil until [PeerSessionKey] succeeds. *)
Record SessionKey_of (Prv Pub : Type) : Type := {
  key : Prv;
  signedKey : bytes;
  peer : option Pub
}.

Arguments key {Prv Pub} _.
Arguments signedKey {Prv Pub} _.
Arguments peer {Prv Pub} _.

(** A computation that draws on the process's sources of randomness
    ([PRNG], which is [rand.Reader] unless reassigned).  What has been drawn
    stays drawn when the call fails. *)
Definition M (W A : Type) : Type := W -> outcome A * W.

Definition ret {W A} (a : A) : M W A := fun w => (Ok a, w).

Definition bind {W A B} (c : M W A) (k : A -> M W B) : M W B :=
  fun w =>
    match c w with
    | (Ok a, w') => k a w'
    | (Err e, w') => (Err e, w')
    | (Panic, w') => (Panic, w')
    end.

Definition lift {W A} (r : outcome A) : M W A := fun w => (r, w).

(** [x, err := c; if err != nil { return nil }]: the error is dropped and
    the caller gets a nil pointer. *)
Definition nil_on_error {W A B} (c : M W A) (k : A -> M W (option B))
  : M W (option B) :=
  fun w =>
    match c w with
    | (Ok a, w') => k a w'
    | (Err _, w') => (Ok None, w')
    | (Panic, w') => (Panic, w')
    end.

Declare Scope go_scope.
Delimit Scope go_scope with go.
Notation "x <- c ;; k" := (bind c (fun x => k))
  (at level 61, c at next level, right associativity) : go_scope.
Notation "x <-? c ;; k" := (nil_on_error c (fun x => k))
  (at level 61, c at next level, right associativity) : go_scope.

(** The packages [forwardsec] is built on.  None of them is part of the
    package itself, so each function is a field here:
    [crypto/x509], [chapter8/pks] (RSA signatures), [dhkam] (key agreement),
    [chapter9/authsym] (authenticated encryption) and [encoding/asn1] at the
    two record shapes the package marshals. *)
Class Primitives : Type := {
  world : Type;
  rsa_PrivateKey : Type;
  rsa_PublicKey : Type;
  dsa_PublicKey : Type;
  ecdsa_PublicKey : Type;
  dhkam_PrivateKey : Type;
  dhkam_PublicKey : Type;

  rsa_public : rsa_PrivateKey -> rsa_PublicKey;
  x509_MarshalPKIXPublicKey : rsa_PublicKey -> outcome bytes;
  x509_ParsePKIXPublicKey :
    bytes -> outcome (pkix_key rsa_PublicKey dsa_PublicKey ecdsa_PublicKey);

  pks_GenerateKey : M world rsa_PrivateKey;
  pks_Sign : rsa_PrivateKey -> bytes -> M world bytes;
  pks_Verify : option rsa_PublicKey -> bytes -> bytes -> outcome unit;

  dhkam_GenerateKey : M world dhkam_PrivateKey;
  dhkam_Export : dhkam_PrivateKey -> bytes;
  dhkam_ImportPublic : bytes -> outcome dhkam_PublicKey;
  dhkam_SharedKey :
    dhkam_PrivateKey -> option dhkam_PublicKey -> Z -> M world bytes;

  authsym_SymKeyLen : Z;
  authsym_Encrypt : bytes -> bytes -> bytes -> M world bytes;
  authsym_Decrypt : bytes -> bytes -> bytes -> outcome bytes;

  asn1_Marshal_signedDHKey : signedDHKey -> outcome bytes;
  asn1_Unmarshal_signedDHKey : bytes -> outcome (signedDHKey * bytes);
  asn1_Marshal_ephem : ephem -> outcome bytes;
  asn1_Unmarshal_ephem : bytes -> outcome (ephem * bytes)
}.

Section Forwardsec.

Context {P : Primitives}.

Local Open Scope go_scope.

Definition IdentityKey : Type := IdentityKey_of rsa_PrivateKey.

(** [(id *IdentityKey) Public]: nil when the key cannot be marshalled. *)
Definition IdentityKey_Public (id : IdentityKey) : outcome (option bytes) :=
  match x509_MarshalPKIXPublicKey (rsa_public (id_key id)) with
  | Ok cert => Ok (Some cert)
  | Err _ => Ok None
  | Panic => Panic
  end.

Definition NewIdentityKey : M world (option IdentityKey) :=
  key <-? pks_GenerateKey ;;
  ret (Some ({| id_key := key |} : IdentityKey)).

(** [in] is a slice, nil ([None]) or not.  The last line is the type
    assertion of [cert] to a pointer to an RSA public key, in its one-result
    form, which panics when the dynamic type is another one. *)
Definition ImportPeerIdentity (in_ : option bytes)
  : outcome (option rsa_PublicKey) :=
  match in_ with
  | None => Ok None
  | Some in_ =>
      match x509_ParsePKIXPublicKey in_ with
      | Ok cert =>
          match cert with
          | pkix_rsa k => Ok (Some k)
          | _ => Panic
          end
      | Err _ => Ok None
      | Panic => Panic
      end
  end.

Definition SessionKey : Type := SessionKey_of dhkam_PrivateKey dhkam_PublicKey.

Definition NewSessionKey (id : IdentityKey) : M world (option SessionKey) :=
  key <-? dhkam_GenerateKey ;;
  let Public := dhkam_Export key in
  Signature <-? pks_Sign (id_key id) Public ;;
  let sdhkey := {| Public := Public; Signature := Signature |} in
  signedKey <-? lift (asn1_Marshal_signedDHKey sdhkey) ;;
  ret (Some ({| key := key; signedKey := signedKey; peer := None |}
             : SessionKey)).

Definition SessionKey_Public (skey : SessionKey) : bytes := signedKey skey.

(** The receiver is a pointer whose [peer] field the call may set: the
    session after the call is returned next to the error. *)
Definition PeerSessionKey (skey : SessionKey) (peer_id : option rsa_PublicKey)
    (session : bytes) : SessionKey * outcome unit :=
  let checked :=
    (r <- asn1_Unmarshal_signedDHKey session ;;
     let signedKey := fst r in
     _ <- pks_Verify peer_id (Public signedKey) (Signature signedKey) ;;
     dhkam_ImportPublic (Public signedKey))%outcome in
  match checked with
  | Ok pub =>
      ({| key := key skey; signedKey := signedKey skey; peer := Some pub |}
         : SessionKey,
       Ok tt)
  | Err e => (skey, Err e)
  | Panic => (skey, Panic)
  end.

Definition Decrypt (skey : SessionKey) (in_ : bytes) : M world bytes :=
  r <- lift (asn1_Unmarshal_ephem in_) ;;
  let ephem := fst r in
  pub <- lift (dhkam_ImportPublic (Pub ephem)) ;;
  shared <- dhkam_SharedKey (key skey) (Some pub) sharedKeyLen ;;
  symkey <- lift (slice_to shared authsym_SymKeyLen) ;;
  mackey <- lift (slice_from shared authsym_SymKeyLen) ;;
  out <- lift (authsym_Decrypt symkey mackey (CT ephem)) ;;
  ret out.

Definition Encrypt (skey : SessionKey) (message : bytes) : M world bytes :=
  dhEphem <- dhkam_GenerateKey ;;
  shared <- dhkam_SharedKey dhEphem (peer skey) sharedKeyLen ;;
  symkey <- lift (slice_to shared authsym_SymKeyLen) ;;
  mackey <- lift (slice_from shared authsym_SymKeyLen) ;;
  ct <- authsym_Encrypt symkey mackey message ;;
  let ephem := {| Pub := dhkam_Export dhEphem; CT := ct |} in
  lift (asn1_Marshal_ephem ephem).

End Forwardsec.

(** The same packages with another [dhkam.ImportPublic]. *)
Definition with_ImportPublic (P : Primitives)
    (f : bytes -> outcome (@dhkam_PublicKey P)) : Primitives := {|
  world := @world P;
  rsa_PrivateKey := @rsa_PrivateKey P;
  rsa_PublicKey := @rsa_PublicKey P;
  dsa_PublicKey := @dsa_PublicKey P;
  ecdsa_PublicKey := @ecdsa_PublicKey P;
  dhkam_PrivateKey := @dhkam_PrivateKey P;
  dhkam_PublicKey := @dhkam_PublicKey P;
  rsa_public := @rsa_public P;
  x509_MarshalPKIXPublicKey := @x509_MarshalPKIXPublicKey P;
  x509_ParsePKIXPublicKey := @x509_ParsePKIXPublicKey P;
  pks_GenerateKey := @pks_GenerateKey P;
  pks_Sign := @pks_Sign P;
  pks_Verify := @pks_Verify P;
  dhkam_GenerateKey := @dhkam_GenerateKey P;
  dhkam_Export := @dhkam_Export P;
  dhkam_ImportPublic := f;
  dhkam_SharedKey := @dhkam_SharedKey P;
  authsym_SymKeyLen := @authsym_SymKeyLen P;
  authsym_Encrypt := @authsym_Encrypt P;
  authsym_Decrypt := @authsym_Decrypt P;
  asn1_Marshal_signedDHKey := @asn1_Marshal_signedDHKey P;
  asn1_Unmarshal_signedDHKey := @asn1_Unmarshal_signedDHKey P;
  asn1_Marshal_ephem := @asn1_Marshal_ephem P;
  asn1_Unmarshal_ephem := @asn1_Unmarshal_ephem P
|}.


(** The same packages with another [authsym.SymKeyLen]. *)
Definition with_SymKeyLen (P : Primitives) (n : Z) : Primitives := {|
  world := @world P;
  rsa_PrivateKey := @rsa_PrivateKey P;
  rsa_PublicKey := @rsa_PublicKey P;
  dsa_PublicKey := @dsa_PublicKey P;
  ecdsa_PublicKey := @ecdsa_PublicKey P;
  dhkam_PrivateKey := @dhkam_PrivateKey P;
  dhkam_PublicKey := @dhkam_PublicKey P;
  rsa_public := @rsa_public P;
  x509_MarshalPKIXPublicKey := @x509_MarshalPKIXPublicKey P;
  x509_ParsePKIXPublicKey := @x509_ParsePKIXPublicKey P;
  pks_GenerateKey := @pks_GenerateKey P;
  pks_Sign := @pks_Sign P;
  pks_Verify := @pks_Verify P;
  dhkam_GenerateKey := @dhkam_GenerateKey P;
  dhkam_Export := @dhkam_Export P;
  dhkam_ImportPublic := @dhkam_ImportPublic P;
  dhkam_SharedKey := @dhkam_SharedKey P;
  authsym_SymKeyLen := n;
  authsym_Encrypt := @authsym_Encrypt P;
  authsym_Decrypt := @authsym_Decrypt P;
  asn1_Marshal_signedDHKey := @asn1_Marshal_signedDHKey P;
  asn1_Unmarshal_signedDHKey := @asn1_Unmarshal_signedDHKey P;
  asn1_Marshal_ephem := @asn1_Marshal_ephem P;
  asn1_Unmarshal_ephem := @asn1_Unmarshal_ephem P
|}.

End forwardsec.

Import forwardsec.

(** ** Specification-side definitions *)

(** The number of positions, within the shorter of the two slices, at which
    they hold the same byte. *)
Fixpoint agree (a b : bytes) : Z :=
  match a, b with
  | x :: a', y :: b' => (if Byte.eqb x y then 1 else 0) + agree a' b'
  | _, _ => 0
  end.

(** *** What the protocol needs of the packages it calls

    Each statement below is a promise of a package that [forwardsec]
    imports, in the words of the interface they are used through: a
    reversible record encoding, a public value that can be exported and
    imported, a shared secret that is the same on both sides and depends on
    the two values only, a cipher whose decryption inverts its encryption.
    The theorems name the ones they rest on as hypotheses. *)

Section Contracts.

Context {P : Primitives}.

(** [encoding/asn1]: what was marshalled unmarshals to the same record. *)
Definition signed_export_codec : Prop :=
  forall x b, asn1_Marshal_signedDHKey x = Ok b ->
    exists rest, asn1_Unmarshal_signedDHKey b = Ok (x, rest).

Definition envelope_codec : Prop :=
  forall x b, asn1_Marshal_ephem x = Ok b ->
    exists rest, asn1_Unmarshal_ephem b = Ok (x, rest).

(** [dhkam]: the exported public value of a key pair imports. *)
Definition dh_import_export : Prop :=
  forall k, exists p, dhkam_ImportPublic (dhkam_Export k) = Ok p.

(** [dhkam]: the shared secret one side derived from its private value and
    the other side's public value is the one the other side derives, and
    that derivation depends on the two values only. *)
Definition dh_agreement : Prop :=
  forall a b pa pb n w w' s,
    dhkam_ImportPublic (dhkam_Export a) = Ok pa ->
    dhkam_ImportPublic (dhkam_Export b) = Ok pb ->
    dhkam_SharedKey a (Some pb) n w = (Ok s, w') ->
    forall v, exists v', dhkam_SharedKey b (Some pa) n v = (Ok s, v').


(** [authsym]: decryption under the keys of the encryption gives the
    message back. *)
Definition cipher_correct : Prop :=
  forall symkey mackey m w ct w',
    authsym_Encrypt symkey mackey m w = (Ok ct, w') ->
    authsym_Decrypt symkey mackey ct = Ok m.


(** [pks]: a signature made with a private key verifies under its public
    key. *)
Definition signature_correct : Prop :=
  forall k m w sig w',
    pks_Sign k m w = (Ok sig, w') ->
    pks_Verify (Some (rsa_public k)) m sig = Ok tt.

(** [crypto/x509]: a marshalled RSA public key parses to that key. *)
Definition identity_codec : Prop :=
  forall k cert,
    x509_MarshalPKIXPublicKey k = Ok cert ->
    x509_ParsePKIXPublicKey cert = Ok (pkix_rsa k).

End Contracts.

(** [pbkdf2.Key] returns a key of the length asked for. *)
Definition kdf_length {HashAlgo : Type}
    (pbkdf2_Key : bytes -> bytes -> Z -> Z -> HashAlgo -> bytes) : Prop :=
  forall password salt iter keyLen h,
    0 <= keyLen -> len (pbkdf2_Key password salt iter keyLen h) = keyLen.

(** *** A small instance of the packages

    Diffie-Hellman in the multiplicative group modulo 23 with generator 5,
    a signature that is the key followed by the message, a cipher whose
    output is the two keys followed by the reversed message, and a codec
    that writes each byte of the first field after a mark and ends the
    field with a zero.  The source of
    randomness is a counter. *)

Module toy.

Definition zbyte (z : Z) : byte :=
  match Byte.of_N (Z.to_N z) with
  | Some b => b
  | None => x00
  end.

Fixpoint bytes_eqb (a b : bytes) : bool :=
  match a, b with
  | [], [] => true
  | x :: a', y :: b' => Byte.eqb x y && bytes_eqb a' b'
  | _, _ => false
  end.

Definition marshal2 (a b : bytes) : outcome bytes :=
  Ok (flat_map (fun x => [x01; x]) a ++ x00 :: b).

Fixpoint unmarshal2 (l : bytes) : outcome ((bytes * bytes) * bytes) :=
  match l with
  | [] => Err "asn1: syntax error"%string
  | t :: l1 =>
      if Byte.eqb t x00 then Ok (([], l1), [])
      else
        match l1 with
        | [] => Err "asn1: syntax error: data truncated"%string
        | x :: l2 =>
            (r <- unmarshal2 l2 ;;
             Ok ((x :: fst (fst r), snd (fst r)), snd r))%outcome
        end
  end.

Definition modulus : Z := 23.
Definition generator : Z := 5.

Definition public_of (x : N) : Z := generator ^ Z.of_N x mod modulus.

Definition GenerateKey : M N N := fun w => (Ok w, N.succ w).

Definition Export (x : N) : bytes := [zbyte (public_of x)].

Definition ImportPublic (l : bytes) : outcome Z :=
  match l with
  | [b] => if byte_val b <? modulus then Ok (byte_val b)
           else Err "dhkam: invalid public key"%string
  | _ => Err "dhkam: invalid public key"%string
  end.

Definition SharedKey (x : N) (pub : option Z) (size : Z) : M N bytes :=
  fun w =>
    match pub with
    | None => (Err "dhkam: invalid public key"%string, w)
    | Some A =>
        if size <? 0 then (Err "dhkam: invalid shared key"%string, w)
        else (Ok (repeat (zbyte (A ^ Z.of_N x mod modulus)) (Z.to_nat size)), w)
    end.

Definition Sign (k : byte) (msg : bytes) : M N bytes :=
  fun w => (Ok (k :: msg), w).

Definition Verify (pub : option byte) (msg sig : bytes) : outcome unit :=
  match pub with
  | None => Panic
  | Some k => if bytes_eqb sig (k :: msg) then Ok tt
              else Err "crypto/rsa: verification error"%string
  end.

Definition ParsePKIXPublicKey (l : bytes) : outcome (pkix_key byte unit byte) :=
  match l with
  | [x00; k] => Ok (pkix_rsa k)
  | [x01; k] => Ok (pkix_ecdsa k)
  | _ => Err "x509: failed to parse public key"%string
  end.

Definition SealEncrypt (symkey mackey m : bytes) : M N bytes :=
  fun w => (Ok ((symkey ++ mackey) ++ rev m), w).

Definition SealDecrypt (symkey mackey ct : bytes) : outcome bytes :=
  let keys := symkey ++ mackey in
  if bytes_eqb (firstn (List.length keys) ct) keys
  then Ok (rev (skipn (List.length keys) ct))
  else Err "authsym: authentication failed"%string.

#[export] Instance primitives : Primitives := {|
  world := N;
  rsa_PrivateKey := byte;
  rsa_PublicKey := byte;
  dsa_PublicKey := unit;
  ecdsa_PublicKey := byte;
  dhkam_PrivateKey := N;
  dhkam_PublicKey := Z;
  rsa_public := fun k => k;
  x509_MarshalPKIXPublicKey := fun k => Ok [x00; k];
  x509_ParsePKIXPublicKey := ParsePKIXPublicKey;
  pks_GenerateKey := fun w => (Ok (zbyte (Z.of_N w mod 256)), N.succ w);
  pks_Sign := Sign;
  pks_Verify := Verify;
  dhkam_GenerateKey := GenerateKey;
  dhkam_Export := Export;
  dhkam_ImportPublic := ImportPublic;
  dhkam_SharedKey := SharedKey;
  authsym_SymKeyLen := 16;
  authsym_Encrypt := SealEncrypt;
  authsym_Decrypt := SealDecrypt;
  asn1_Marshal_signedDHKey :=
    fun x => marshal2 (Public x) (Signature x);
  asn1_Unmarshal_signedDHKey :=
    fun l => (r <- unmarshal2 l ;;
              Ok ({| Public := fst (fst r); Signature := snd (fst r) |},
                  snd r))%outcome;
  asn1_Marshal_ephem := fun x => marshal2 (Pub x) (CT x);
  asn1_Unmarshal_ephem :=
    fun l => (r <- unmarshal2 l ;;
              Ok ({| Pub := fst (fst r); CT := snd (fst r) |}, snd r))%outcome
|}.



(** Two parties and a message. *)
Definition alice : IdentityKey_of byte := {| id_key := x41 |}.
Definition bob : IdentityKey_of byte := {| id_key := x42 |}.
Definition hello : bytes := [x68; x65; x6c; x6c; x6f].

(** A session nobody has bound to a peer, and one bound to the public
    value of the private value 5. *)
Definition unbound : SessionKey_of N Z :=
  {| key := 3%N; signedKey := []; peer := None |}.
Definition bound : SessionKey_of N Z :=
  {| key := 3%N; signedKey := []; peer := Some (public_of 5) |}.

(** The session whose private value is 5, which nobody has bound. *)
Definition receiver : SessionKey_of N Z :=
  {| key := 5%N; signedKey := []; peer := None |}.

(** A signed export whose signature is not the signer's. *)
Definition forged : bytes := [x01; x05; x00; x09].

(** A hash for the two password helpers: the length of the input, then the
    input. *)
Definition digest (l : bytes) : bytes := zbyte (len l mod 256) :: l.

Definition kdf (password salt : bytes) (iter keyLen : Z) (h : unit) : bytes :=
  firstn (Z.to_nat keyLen) (digest (salt ++ password) ++ repeat x00 (Z.to_nat keyLen)).


(** Surroundings for the challenge/response helper: the next random
    number, the messages that will arrive, and the messages sent, newest
    first. *)
Record net : Type := {
  next_random : Z;
  arriving : list bytes;
  sent : list bytes
}.

Definition rand_Int (max : Z) (s : net) : outcome Z * net :=
  if max <=? 0 then (Panic, s)
  else (Ok (next_random s mod max),
        {| next_random := next_random s + 1;
           arriving := arriving s; sent := sent s |}).

Definition Println (msg : string) (e : error) (s : net) : net := s.

Definition conn_Read (conn : unit) (n : Z) (s : net)
  : (bytes * Z * option error) * net :=
  match arriving s with
  | [] => (([], 0, Some "EOF"%string), s)
  | m :: rest =>
      ((firstn (Z.to_nat n) m, len (firstn (Z.to_nat n) m), None),
       {| next_random := next_random s; arriving := rest; sent := sent s |})
  end.

Definition conn_Write (conn : unit) (b : bytes) (s : net)
  : (Z * option error) * net :=
  ((len b, None),
   {| next_random := next_random s; arriving := arriving s;
      sent := b :: sent s |}).

(** A randomness source for salts: a counter whose value fills the
    buffer; at 0 the source fails. *)
Definition rand_Read (n : Z) (w : Z) : (bytes * Z * option error) * Z :=
  if w =? 0 then (([], 0, Some "unexpected EOF"%string), w)
  else ((repeat (zbyte (w mod 256)) (Z.to_nat n), n, None), w + 1).
End toy.

(** * Properties *)

(** ** Constant-time comparison *)

Section Comparison.

Lemma byte_val_range (x : byte) : 0 <= byte_val x < 256.
Proof.
  unfold byte_val. pose proof (Byte.to_N_bounded x). lia.
Qed.

Lemma byte_val_inj (x y : byte) : byte_val x = byte_val y -> x = y.
Proof.
  unfold byte_val. intros H. apply N2Z.inj in H.
  pose proof (Byte.of_to_N x) as Hx. rewrite H, Byte.of_to_N in Hx.
  congruence.
Qed.

Lemma lxor_byte_range (a b : Z) :
  0 <= a < 256 -> 0 <= b < 256 -> 0 <= Z.lxor a b < 256.
Proof.
  intros Ha Hb.
  assert (Hn : 0 <= Z.lxor a b) by (apply Z.lxor_nonneg; lia).
  split; [exact Hn|].
  destruct (Z.eq_dec (Z.lxor a b) 0) as [E|E]; [lia|].
  change 256 with (2 ^ 8). apply Z.log2_lt_pow2; [lia|].
  pose proof (Z.log2_lxor a b ltac:(lia) ltac:(lia)) as Hl.
  assert (Z.log2 a < 8).
  { destruct (Z.eq_dec a 0) as [->|]; [reflexivity|].
    apply Z.log2_lt_pow2; simpl; lia. }
  assert (Z.log2 b < 8).
  { destruct (Z.eq_dec b 0) as [->|]; [reflexivity|].
    apply Z.log2_lt_pow2; simpl; lia. }
  lia.
Qed.

Lemma ConstantTimeByteEq_spec (x y : byte) :
  subtle.ConstantTimeByteEq x y = if Byte.eqb x y then 1 else 0.
Proof.
  unfold subtle.ConstantTimeByteEq.
  destruct (Byte.eqb x y) eqn:E.
  - apply Byte.byte_dec_bl in E. subst y.
    rewrite Z.lxor_nilpotent. reflexivity.
  - apply Byte.eqb_false in E.
    pose proof (lxor_byte_range _ _ (byte_val_range x) (byte_val_range y)) as R.
    assert (Z.lxor (byte_val x) (byte_val y) <> 0).
    { intros H. apply E, byte_val_inj, Z.lxor_eq_0_iff, H. }
    rewrite Z.mod_small by lia.
    rewrite Z.shiftr_div_pow2 by lia.
    apply Z.div_small. change (2 ^ 31) with 2147483648. lia.
Qed.

Lemma index_head {A} (x : A) (l : list A) : index (x :: l) 0 = Ok x.
Proof.
  unfold index, len. simpl List.length.
  replace (0 <? Z.of_nat (S (List.length l))) with true
    by (symmetry; apply Z.ltb_lt; lia).
  reflexivity.
Qed.

Lemma index_tail {A} (x : A) (l : list A) (i : Z) :
  0 <= i -> index (x :: l) (i + 1) = index l i.
Proof.
  intros Hi. unfold index, len. simpl List.length.
  replace (Z.to_nat (i + 1)) with (S (Z.to_nat i)) by lia. simpl nth_error.
  replace (0 <=? i + 1) with true by (symmetry; apply Z.leb_le; lia).
  replace (0 <=? i) with true by (symmetry; apply Z.leb_le; lia).
  replace (i + 1 <? Z.of_nat (S (List.length l)))
    with (i <? Z.of_nat (List.length l)); [reflexivity|].
  destruct (Z.ltb_spec i (Z.of_nat (List.length l)));
    destruct (Z.ltb_spec (i + 1) (Z.of_nat (S (List.length l)))); lia || reflexivity.
Qed.

Lemma count_equal_tail (x y : byte) (a b : bytes) (n : nat) :
  forall i m, 0 <= i ->
    subtle.count_equal (x :: a) (y :: b) n (i + 1) m
    = subtle.count_equal a b n i m.
Proof.
  induction n as [|n IH]; intros i m Hi; simpl; [reflexivity|].
  rewrite !index_tail by lia.
  destruct (index a i); simpl; try reflexivity.
  destruct (index b i); simpl; try reflexivity.
  apply IH. lia.
Qed.

(** The loop never indexes out of range and counts the agreeing bytes. *)
Lemma count_equal_agree (a : bytes) :
  forall b m,
    subtle.count_equal a b (Nat.min (List.length a) (List.length b)) 0 m
    = Ok (m + agree a b).
Proof.
  induction a as [|x a IH]; intros [|y b] m;
    try (simpl; f_equal; lia).
  cbn [List.length Nat.min subtle.count_equal agree].
  rewrite !index_head. cbn [obind].
  rewrite (count_equal_tail x y a b _ 0) by lia.
  rewrite IH, ConstantTimeByteEq_spec. f_equal. lia.
Qed.

Lemma agree_bounds (a : bytes) :
  forall b, 0 <= agree a b <= Z.of_nat (Nat.min (List.length a) (List.length b)).
Proof.
  induction a as [|x a IH]; intros [|y b]; simpl agree; simpl List.length;
    try (simpl; lia).
  specialize (IH b). rewrite <- Nat.succ_min_distr.
  destruct (Byte.eqb x y); lia.
Qed.

Lemma agree_all (a : bytes) :
  forall b, List.length a = List.length b ->
    (agree a b = len a <-> a = b).
Proof.
  unfold len.
  induction a as [|x a IH]; intros [|y b] Hl; simpl in Hl; try discriminate.
  - simpl. tauto.
  - injection Hl as Hl. specialize (IH b Hl).
    pose proof (agree_bounds a b) as Bd. rewrite <- Hl, Nat.min_id in Bd.
    simpl agree. simpl List.length.
    destruct (Byte.eqb x y) eqn:E.
    + apply Byte.byte_dec_bl in E. subst y. split.
      * intros H. f_equal. apply IH. lia.
      * intros H. injection H as H. apply IH in H. lia.
    + apply Byte.eqb_false in E. split; [lia | congruence].
Qed.

Lemma clamp_min (a b : bytes) :
  Z.to_nat (if len a >? len b then len b else len a)
  = Nat.min (List.length a) (List.length b).
Proof.
  unfold len. destruct (Z.gtb_spec (Z.of_nat (List.length a)) (Z.of_nat (List.length b))); lia.
Qed.

End Comparison.

(** ** Challenge/response (package hap) *)

Section HapProperties.

Variable keccak512 : bytes -> bytes.

(** The comparison never panics and answers whether the slices are equal. *)
Lemma matchHash_decides (hash1 hash2 : bytes) :
  hap.matchHash hash1 hash2
  = Ok ((agree hash1 hash2 =? Z.of_nat (Nat.min (List.length hash1) (List.length hash2)))
        && (len hash1 =? len hash2)).
Proof.
  unfold hap.matchHash. cbv zeta.
  rewrite clamp_min, count_equal_agree. cbn [obind].
  rewrite <- clamp_min, Z2Nat.id; [reflexivity|].
  unfold len. destruct (_ >? _); lia.
Qed.

Lemma matchHash_true_iff (hash1 hash2 : bytes) :
  hap.matchHash hash1 hash2 = Ok true <-> hash1 = hash2.
Proof.
  rewrite matchHash_decides. split.
  - intros H. injection H as H. apply andb_true_iff in H as [Hm Hs].
    apply Z.eqb_eq in Hm, Hs. unfold len in Hs.
    assert (Hl : List.length hash1 = List.length hash2) by lia.
    apply agree_all; [exact Hl|]. unfold len.
    rewrite Hm, Hl, Nat.min_id. reflexivity.
  - intros <-. f_equal. apply andb_true_iff. split; apply Z.eqb_eq.
    + rewrite Nat.min_id. apply (agree_all hash1 hash1); reflexivity.
    + reflexivity.
Qed.

(** C9: for every password and challenge, [Validate] accepts the response
    [Response] computes from them, and accepts nothing else: it returns true
    exactly for that response and false for every other one; and
    [matchHash] returns true exactly when its two slices have the same
    length and the same byte at every index (it returns false otherwise,
    and never indexes out of range). *)
Theorem Validate_accepts_Response :
  (forall password challenge : bytes,
      hap.Validate keccak512 password challenge
        (hap.Response keccak512 password challenge) = Ok true)
  /\ (forall password challenge response : bytes,
         hap.Validate keccak512 password challenge response = Ok true
         <-> response = hap.Response keccak512 password challenge)
  /\ (forall password challenge response : bytes,
         response <> hap.Response keccak512 password challenge ->
         hap.Validate keccak512 password challenge response = Ok false)
  /\ (forall hash1 hash2 : bytes,
         hap.matchHash hash1 hash2 = Ok true
         <-> (len hash1 = len hash2
              /\ forall i, 0 <= i < len hash1 -> index hash1 i = index hash2 i))
  /\ (forall hash1 hash2 : bytes,
         hap.matchHash hash1 hash2 = Ok true
         \/ hap.matchHash hash1 hash2 = Ok false).
Proof.
  split; [|split; [|split; [|split]]].
  - intros password challenge. unfold hap.Validate. cbv zeta.
    apply matchHash_true_iff. reflexivity.
  - intros password challenge response. unfold hap.Validate. cbv zeta.
    rewrite matchHash_true_iff. split; intros H; symmetry; exact H.
  - intros password challenge response Hne. unfold hap.Validate. cbv zeta.
    rewrite matchHash_decides.
    destruct (_ && _) eqn:E; [|reflexivity].
    exfalso. apply Hne. symmetry. apply matchHash_true_iff.
    rewrite matchHash_decides, E. reflexivity.
  - intros hash1 hash2. rewrite matchHash_true_iff. split.
    + intros <-. split; [reflexivity | intros; reflexivity].
    + intros [Hl Hi]. unfold len in Hl. apply Nat2Z.inj in Hl.
      revert hash2 Hl Hi.
      induction hash1 as [|x a IH]; intros [|y b] Hl Hi;
        simpl in Hl; try discriminate; [reflexivity|].
      injection Hl as Hl.
      assert (Hlen : 0 < len (x :: a)) by (unfold len; simpl List.length; lia).
      pose proof (Hi 0 ltac:(lia)) as H0. rewrite !index_head in H0.
      injection H0 as ->. f_equal. apply IH; [exact Hl|].
      intros i Hr. specialize (Hi (i + 1)).
      rewrite !index_tail in Hi by lia. apply Hi.
      unfold len in *. simpl List.length. lia.
  - intros hash1 hash2. rewrite matchHash_decides.
    destruct (_ && _); [left | right]; reflexivity.
Qed.

End HapProperties.

(** ** Password hashing (package hash) *)

Section HashProperties.

Variable HashAlgo : Type.
Variable DefaultAlgo_New : HashAlgo.
Variable pbkdf2_Key : bytes -> bytes -> Z -> Z -> HashAlgo -> bytes.
Variable vars : hash.Vars.

Local Abbreviation DeriveKeyWithSalt :=
  (hash.DeriveKeyWithSalt HashAlgo DefaultAlgo_New pbkdf2_Key vars).
Local Abbreviation MatchPassword :=
  (hash.MatchPassword HashAlgo DefaultAlgo_New pbkdf2_Key vars).

Lemma MatchPassword_decides (password : bytes) (pk : hash.PasswordKey) :
  MatchPassword password (Some pk)
  = Ok ((agree (hash.Key (DeriveKeyWithSalt password (hash.Salt pk))) (hash.Key pk)
         =? Z.of_nat (Nat.min
              (List.length (hash.Key (DeriveKeyWithSalt password (hash.Salt pk))))
              (List.length (hash.Key pk))))
        && (len (hash.Key (DeriveKeyWithSalt password (hash.Salt pk)))
            =? len (hash.Key pk))).
Proof.
  unfold hash.MatchPassword. cbv zeta.
  rewrite clamp_min, count_equal_agree. cbn [obind].
  rewrite <- clamp_min, Z2Nat.id by (unfold len; destruct (_ >? _); lia).
  rewrite Z.add_0_l.
  destruct (len _ =? len _); simpl; [rewrite andb_true_r | rewrite andb_false_r];
    reflexivity.
Qed.

Lemma MatchPassword_true_iff (password : bytes) (pk : hash.PasswordKey) :
  MatchPassword password (Some pk) = Ok true
  <-> hash.Key (DeriveKeyWithSalt password (hash.Salt pk)) = hash.Key pk.
Proof.
  rewrite MatchPassword_decides.
  set (k := hash.Key (DeriveKeyWithSalt password (hash.Salt pk))).
  split.
  - intros H. injection H as H. apply andb_true_iff in H as [Hm Hs].
    apply Z.eqb_eq in Hm, Hs. unfold len in Hs.
    assert (Hl : List.length k = List.length (hash.Key pk)) by lia.
    apply agree_all; [exact Hl|]. unfold len.
    rewrite Hm, Hl, Nat.min_id. reflexivity.
  - intros ->. f_equal. apply andb_true_iff. split; apply Z.eqb_eq.
    + rewrite Nat.min_id. apply (agree_all (hash.Key pk)); reflexivity.
    + reflexivity.
Qed.

(** C10: for every password and salt, [MatchPassword] accepts the password
    against the key [DeriveKeyWithSalt] derived from it; and for every stored
    key it returns true only if (indeed exactly when) the key derived from
    the supplied password and the stored salt has the length of the stored
    key and the same byte at every index. *)
Theorem MatchPassword_accepts_derived_key :
  (forall password salt : bytes,
      MatchPassword password (Some (DeriveKeyWithSalt password salt)) = Ok true)
  /\ (forall (password : bytes) (pk : hash.PasswordKey),
         MatchPassword password (Some pk) = Ok true
         <-> (len (hash.Key (DeriveKeyWithSalt password (hash.Salt pk)))
              = len (hash.Key pk)
              /\ hash.Key (DeriveKeyWithSalt password (hash.Salt pk))
                 = hash.Key pk)).
Proof.
  split.
  - intros password salt. apply MatchPassword_true_iff. reflexivity.
  - intros password pk. rewrite MatchPassword_true_iff. split.
    + intros H. rewrite H. split; reflexivity.
    + intros [_ H]. exact H.
Qed.

End HashProperties.

(** ** Sessions (package forwardsec) *)

(** Case analysis on the next call of a computation in hypothesis [H]. *)
Ltac next_call H :=
  match type of H with
  | context [match ?c with _ => _ end] =>
      lazymatch c with
      | (_, _) => fail
      | _ =>
          let E := fresh "E" in
          destruct c eqn:E; cbn [fst snd obind] in H; try discriminate H
      end
  end.

Ltac run H :=
  cbv beta delta [bind nil_on_error lift ret obind] in H; cbn beta iota in H;
  repeat (next_call H; cbn beta iota in H).

Section Sessions.

Context {P : Primitives}.

Lemma NewSessionKey_built (id : IdentityKey) (w w' : world) (skey : SessionKey) :
  NewSessionKey id w = (Ok (Some skey), w') ->
  exists w1 sig,
    dhkam_GenerateKey w = (Ok (key skey), w1)
    /\ pks_Sign (id_key id) (dhkam_Export (key skey)) w1 = (Ok sig, w')
    /\ asn1_Marshal_signedDHKey
         {| Public := dhkam_Export (key skey); Signature := sig |}
       = Ok (signedKey skey)
    /\ peer skey = None.
Proof.
  intros H. unfold NewSessionKey in H. run H.
  injection H as <- <-. cbn [key signedKey peer].
  eauto 10.
Qed.

Lemma PeerSessionKey_accepted (skey skey' : SessionKey)
    (peer_id : option rsa_PublicKey) (session : bytes) :
  PeerSessionKey skey peer_id session = (skey', Ok tt) ->
  exists sk rest pub,
    asn1_Unmarshal_signedDHKey session = Ok (sk, rest)
    /\ pks_Verify peer_id (Public sk) (Signature sk) = Ok tt
    /\ dhkam_ImportPublic (Public sk) = Ok pub
    /\ key skey' = key skey
    /\ signedKey skey' = signedKey skey
    /\ peer skey' = Some pub.
Proof.
  unfold PeerSessionKey. intros H.
  destruct (asn1_Unmarshal_signedDHKey session) as [[sk rest]| |] eqn:EU;
    cbn [obind fst] in H; try discriminate H.
  destruct (pks_Verify peer_id (Public sk) (Signature sk)) as [[]| |] eqn:EV;
    cbn [obind] in H; try discriminate H.
  destruct (dhkam_ImportPublic (Public sk)) as [pub| |] eqn:EI;
    try discriminate H.
  injection H as <-. cbn [key signedKey peer]. eauto 10.
Qed.

Lemma Encrypt_returned (skey : SessionKey) (m env : bytes) (w w' : world) :
  Encrypt skey m w = (Ok env, w') ->
  exists eph w1 shared w2 symkey mackey ct,
    dhkam_GenerateKey w = (Ok eph, w1)
    /\ dhkam_SharedKey eph (peer skey) sharedKeyLen w1 = (Ok shared, w2)
    /\ slice_to shared authsym_SymKeyLen = Ok symkey
    /\ slice_from shared authsym_SymKeyLen = Ok mackey
    /\ authsym_Encrypt symkey mackey m w2 = (Ok ct, w')
    /\ asn1_Marshal_ephem {| Pub := dhkam_Export eph; CT := ct |} = Ok env.
Proof.
  intros H. unfold Encrypt in H. run H.
  injection H as Hm <-. eauto 15.
Qed.

Lemma Encrypt_from_shared (skey : SessionKey) (m : bytes) (w w1 w2 : world)
    (eph : dhkam_PrivateKey) (shared symkey mackey : bytes) :
  dhkam_GenerateKey w = (Ok eph, w1) ->
  dhkam_SharedKey eph (peer skey) sharedKeyLen w1 = (Ok shared, w2) ->
  slice_to shared authsym_SymKeyLen = Ok symkey ->
  slice_from shared authsym_SymKeyLen = Ok mackey ->
  Encrypt skey m w
  = (ct <- authsym_Encrypt symkey mackey m ;;
     lift (asn1_Marshal_ephem {| Pub := dhkam_Export eph; CT := ct |}))%go w2.
Proof.
  intros EG ES Et Ef. unfold Encrypt, bind, lift.
  rewrite EG, ES, Et, Ef. reflexivity.
Qed.

Lemma Decrypt_from_shared (skey : SessionKey) (in_ : bytes) (w w1 : world)
    (e : ephem) (rest : bytes) (pub : dhkam_PublicKey)
    (shared symkey mackey : bytes) :
  asn1_Unmarshal_ephem in_ = Ok (e, rest) ->
  dhkam_ImportPublic (Pub e) = Ok pub ->
  dhkam_SharedKey (key skey) (Some pub) sharedKeyLen w = (Ok shared, w1) ->
  slice_to shared authsym_SymKeyLen = Ok symkey ->
  slice_from shared authsym_SymKeyLen = Ok mackey ->
  Decrypt skey in_ w = (authsym_Decrypt symkey mackey (CT e), w1).
Proof.
  intros EU EI ES Et Ef. unfold Decrypt, bind, lift, ret.
  rewrite EU. cbn [fst]. rewrite EI, ES, Et, Ef.
  destruct (authsym_Decrypt symkey mackey (CT e)); reflexivity.
Qed.

(** [Decrypt] returns a plaintext only when every step before succeeded,
    the cipher's own check of [CT] under the derived keys included. *)
Lemma Decrypt_returned (skey : SessionKey) (in_ out : bytes) (w w' : world) :
  Decrypt skey in_ w = (Ok out, w') ->
  exists e rest pub shared symkey mackey,
    asn1_Unmarshal_ephem in_ = Ok (e, rest)
    /\ dhkam_ImportPublic (Pub e) = Ok pub
    /\ dhkam_SharedKey (key skey) (Some pub) sharedKeyLen w = (Ok shared, w')
    /\ slice_to shared authsym_SymKeyLen = Ok symkey
    /\ slice_from shared authsym_SymKeyLen = Ok mackey
    /\ authsym_Decrypt symkey mackey (CT e) = Ok out.
Proof.
  intros H. unfold Decrypt in H.
  cbv beta delta [bind lift ret] in H.
  destruct (asn1_Unmarshal_ephem in_) as [[e rest]| |] eqn:EU;
    try discriminate H.
  cbn [fst] in H. run H.
  injection H as <- <-. eauto 15.
Qed.

End Sessions.

Section Protocol.

Context {P : Primitives}.

(** After a handshake the session holds the public value of the peer's
    own key pair, and keeps its own key pair. *)
Lemma handshake_binds_peer (id : IdentityKey) (w w' : world)
    (mine theirs bound : SessionKey) (peer_id : option rsa_PublicKey) :
  signed_export_codec ->
  NewSessionKey id w = (Ok (Some theirs), w') ->
  PeerSessionKey mine peer_id (SessionKey_Public theirs) = (bound, Ok tt) ->
  exists pub,
    dhkam_ImportPublic (dhkam_Export (key theirs)) = Ok pub
    /\ peer bound = Some pub
    /\ key bound = key mine.
Proof.
  intros Hcodec Hnew Hpeer.
  apply NewSessionKey_built in Hnew as (w1 & sig & _ & _ & Hm & _).
  apply PeerSessionKey_accepted in Hpeer
    as (sk & rest & pub & HU & _ & HI & Hk & _ & Hp).
  apply Hcodec in Hm as (rest' & HU').
  unfold SessionKey_Public in HU. rewrite HU' in HU.
  injection HU as <- _. cbn [Public] in HI. eauto.
Qed.

(** One direction of the round trip: what the sender encrypts to the
    receiver's public value, the receiver decrypts. *)
Lemma Decrypt_of_Encrypt (sender receiver : SessionKey) (pub : dhkam_PublicKey) :
  envelope_codec -> dh_import_export -> dh_agreement -> cipher_correct ->
  dhkam_ImportPublic (dhkam_Export (key receiver)) = Ok pub ->
  peer sender = Some pub ->
  forall m w env w',
    Encrypt sender m w = (Ok env, w') ->
    forall v, exists v', Decrypt receiver env v = (Ok m, v').
Proof.
  intros Hcodec Himp Hagree Hcipher Hpub Hpeer m w env w' HE v.
  apply Encrypt_returned in HE
    as (eph & w1 & shared & w2 & symkey & mackey & ct
        & HG & HS & Ht & Hf & HC & HM).
  apply Hcodec in HM as (rest & HU).
  destruct (Himp eph) as (pubE & HpubE).
  rewrite Hpeer in HS.
  destruct (Hagree eph (key receiver) pubE pub _ _ _ _ HpubE Hpub HS v)
    as (v' & HS').
  exists v'.
  rewrite (Decrypt_from_shared receiver env v v' _ rest pubE shared symkey mackey
             HU HpubE HS' Ht Hf).
  cbn [CT]. f_equal. eapply Hcipher, HC.
Qed.

(** C1: for two sessions that completed a mutual handshake (each built by
    [NewSessionKey], each having run [PeerSessionKey] successfully on the
    other's signed export) and every message, what one session's [Encrypt]
    returns the other's [Decrypt] turns back into the message, in both
    directions.  The packages underneath are assumed to keep their
    contracts: the codec decodes what it encoded, an exported public value
    imports, both sides derive the same shared secret, and the cipher
    decrypts what it encrypted. *)
Theorem Decrypt_Encrypt_roundtrip
    (idA idB : IdentityKey) (wA wA' wB wB' : world)
    (A0 B0 A B : SessionKey) (pidA pidB : option rsa_PublicKey) :
  signed_export_codec -> envelope_codec ->
  dh_import_export -> dh_agreement -> cipher_correct ->
  NewSessionKey idA wA = (Ok (Some A0), wA') ->
  NewSessionKey idB wB = (Ok (Some B0), wB') ->
  PeerSessionKey A0 pidB (SessionKey_Public B0) = (A, Ok tt) ->
  PeerSessionKey B0 pidA (SessionKey_Public A0) = (B, Ok tt) ->
  forall (m env : bytes) (w w' : world),
    (Encrypt A m w = (Ok env, w') ->
     forall v, exists v', Decrypt B env v = (Ok m, v'))
    /\ (Encrypt B m w = (Ok env, w') ->
        forall v, exists v', Decrypt A env v = (Ok m, v')).
Proof.
  intros Hsigned Henv Himp Hagree Hcipher HnA HnB HpA HpB m env w w'.
  destruct (handshake_binds_peer idB wB wB' A0 B0 A pidB Hsigned HnB HpA)
    as (pubB & HiB & HpeerA & HkA).
  destruct (handshake_binds_peer idA wA wA' B0 A0 B pidA Hsigned HnA HpB)
    as (pubA & HiA & HpeerB & HkB).
  split; intros HE.
  - apply (Decrypt_of_Encrypt A B pubB Henv Himp Hagree Hcipher) with (w := w) (w' := w');
      [rewrite HkB; exact HiB | exact HpeerA | exact HE].
  - apply (Decrypt_of_Encrypt B A pubA Henv Himp Hagree Hcipher) with (w := w) (w' := w');
      [rewrite HkA; exact HiA | exact HpeerB | exact HE].
Qed.

(** C3: when the input decodes as a signed export but [pks.Verify] refuses
    the signature for the given peer identity, [PeerSessionKey] returns that
    error and the session it was called on is unchanged, its [peer] field
    included; and this holds whatever [dhkam.ImportPublic] would have done
    with the enclosed public value (a panic included): the value is not
    imported. *)
Theorem PeerSessionKey_rejects_bad_signature
    (skey : SessionKey) (peer_id : option rsa_PublicKey) (session : bytes)
    (sk : signedDHKey) (rest : bytes) (e : error) :
  asn1_Unmarshal_signedDHKey session = Ok (sk, rest) ->
  pks_Verify peer_id (Public sk) (Signature sk) = Err e ->
  PeerSessionKey skey peer_id session = (skey, Err e)
  /\ peer (fst (PeerSessionKey skey peer_id session)) = peer skey
  /\ forall f : bytes -> outcome dhkam_PublicKey,
       PeerSessionKey (P := with_ImportPublic P f) skey peer_id session
       = (skey, Err e).
Proof.
  intros HU HV.
  assert (H : forall f : bytes -> outcome dhkam_PublicKey,
             PeerSessionKey (P := with_ImportPublic P f) skey peer_id session
             = (skey, Err e)).
  { intros f. unfold PeerSessionKey. cbn.
    rewrite HU. cbn [obind fst]. rewrite HV. reflexivity. }
  assert (H0 : PeerSessionKey skey peer_id session = (skey, Err e)).
  { unfold PeerSessionKey. rewrite HU. cbn [obind fst]. rewrite HV. reflexivity. }
  split; [exact H0|]. split; [rewrite H0; reflexivity | exact H].
Qed.

End Protocol.

Section Failures.

Context {P : Primitives}.



Lemma ImportPeerIdentity_nil : ImportPeerIdentity None = Ok None.
Proof. reflexivity. Qed.

Lemma ImportPeerIdentity_decode_failure (in_ : bytes) (e : error) :
  x509_ParsePKIXPublicKey in_ = Err e ->
  ImportPeerIdentity (Some in_) = Ok None.
Proof. intros H. unfold ImportPeerIdentity. rewrite H. reflexivity. Qed.

Lemma ImportPeerIdentity_rsa (in_ : bytes) (k : rsa_PublicKey) :
  x509_ParsePKIXPublicKey in_ = Ok (pkix_rsa k) ->
  ImportPeerIdentity (Some in_) = Ok (Some k).
Proof. intros H. unfold ImportPeerIdentity. rewrite H. reflexivity. Qed.

(** C5 (where the code departs from it): an input that decodes to a public
    key of another algorithm than RSA makes [ImportPeerIdentity] panic at
    its type assertion, instead of failing like the decode-failure path,
    which returns nil. *)
Theorem ImportPeerIdentity_panics_on_other_key_type (in_ : bytes)
    (cert : pkix_key rsa_PublicKey dsa_PublicKey ecdsa_PublicKey) :
  x509_ParsePKIXPublicKey in_ = Ok cert ->
  (forall k, cert <> pkix_rsa k) ->
  ImportPeerIdentity (Some in_) = Panic.
Proof.
  intros H Hother. unfold ImportPeerIdentity. rewrite H.
  destruct cert as [k| |]; [destruct (Hother k eq_refl) | reflexivity ..].
Qed.



(** C8: a shared secret of the fixed length [sharedKeyLen] is cut at
    [authsym.SymKeyLen] into a leading confidentiality key and a trailing
    integrity key; the two cuts succeed, their concatenation is the secret
    (no gap, no overlap), their lengths are [SymKeyLen] and
    [sharedKeyLen - SymKeyLen]; and [Encrypt] and [Decrypt] hand exactly
    these two keys to the cipher. *)
Theorem shared_secret_split (shared : bytes) :
  0 <= authsym_SymKeyLen <= sharedKeyLen ->
  len shared = sharedKeyLen ->
  exists symkey mackey,
    slice_to shared authsym_SymKeyLen = Ok symkey
    /\ slice_from shared authsym_SymKeyLen = Ok mackey
    /\ symkey ++ mackey = shared
    /\ len symkey = authsym_SymKeyLen
    /\ len mackey = sharedKeyLen - authsym_SymKeyLen
    /\ (forall (skey : SessionKey) (m : bytes) (w w1 w2 : world)
               (eph : dhkam_PrivateKey),
           dhkam_GenerateKey w = (Ok eph, w1) ->
           dhkam_SharedKey eph (peer skey) sharedKeyLen w1 = (Ok shared, w2) ->
           Encrypt skey m w
           = (ct <- authsym_Encrypt symkey mackey m ;;
              lift (asn1_Marshal_ephem
                      {| Pub := dhkam_Export eph; CT := ct |}))%go w2)
    /\ (forall (skey : SessionKey) (in_ : bytes) (w w1 : world)
               (e : ephem) (rest : bytes) (pub : dhkam_PublicKey),
           asn1_Unmarshal_ephem in_ = Ok (e, rest) ->
           dhkam_ImportPublic (Pub e) = Ok pub ->
           dhkam_SharedKey (key skey) (Some pub) sharedKeyLen w
           = (Ok shared, w1) ->
           Decrypt skey in_ w = (authsym_Decrypt symkey mackey (CT e), w1)).
Proof.
  intros Hn Hl.
  assert (Hin : (0 <=? authsym_SymKeyLen) && (authsym_SymKeyLen <=? len shared)
                = true).
  { apply andb_true_iff. split; apply Z.leb_le; lia. }
  exists (firstn (Z.to_nat authsym_SymKeyLen) shared),
         (skipn (Z.to_nat authsym_SymKeyLen) shared).
  assert (Ht : slice_to shared authsym_SymKeyLen
               = Ok (firstn (Z.to_nat authsym_SymKeyLen) shared))
    by (unfold slice_to; rewrite Hin; reflexivity).
  assert (Hf : slice_from shared authsym_SymKeyLen
               = Ok (skipn (Z.to_nat authsym_SymKeyLen) shared))
    by (unfold slice_from; rewrite Hin; reflexivity).
  unfold len in *.
  repeat split.
  - exact Ht.
  - exact Hf.
  - apply firstn_skipn.
  - rewrite length_firstn. lia.
  - rewrite length_skipn. lia.
  - intros. eapply Encrypt_from_shared; eassumption.
  - intros. eapply Decrypt_from_shared; eassumption.
Qed.

End Failures.

(** ** The small instance keeps the contracts *)

Section ToyFacts.

Lemma byte_val_zbyte (z : Z) : 0 <= z < 256 -> byte_val (toy.zbyte z) = z.
Proof.
  intros Hz. unfold toy.zbyte, byte_val.
  pose proof (Byte.to_of_N_option_map (Z.to_N z)) as H.
  destruct (N.leb_spec (Z.to_N z) 255) as [Hle|Hgt]; [|lia].
  destruct (Byte.of_N (Z.to_N z)) as [b|]; simpl in H; [|discriminate H].
  injection H as ->. lia.
Qed.

Lemma bytes_eqb_refl (a : bytes) : toy.bytes_eqb a a = true.
Proof.
  induction a as [|x a IH]; simpl; [reflexivity|].
  rewrite IH, andb_true_r. apply Byte.byte_dec_lb. reflexivity.
Qed.

Lemma toy_unmarshal2_marshal2 (a b : bytes) :
  toy.unmarshal2 (flat_map (fun x => [x01; x]) a ++ x00 :: b)
  = Ok ((a, b), []).
Proof.
  induction a as [|x a IH]; [reflexivity|].
  cbn [flat_map app toy.unmarshal2].
  change (Byte.eqb x01 x00) with false. cbv iota.
  rewrite IH. reflexivity.
Qed.

Lemma toy_signed_export_codec : signed_export_codec (P := toy.primitives).
Proof.
  intros [pub sig] b H. cbn in H. unfold toy.marshal2 in H.
  injection H as <-. exists []. cbn.
  rewrite toy_unmarshal2_marshal2. reflexivity.
Qed.

Lemma toy_envelope_codec : envelope_codec (P := toy.primitives).
Proof.
  intros [pub ct] b H. cbn in H. unfold toy.marshal2 in H.
  injection H as <-. exists []. cbn.
  rewrite toy_unmarshal2_marshal2. reflexivity.
Qed.


Lemma toy_public_range (x : N) : 0 <= toy.public_of x < 23.
Proof. unfold toy.public_of. apply Z.mod_pos_bound. reflexivity. Qed.

Lemma toy_ImportPublic_Export (k : N) :
  toy.ImportPublic (toy.Export k) = Ok (toy.public_of k).
Proof.
  pose proof (toy_public_range k) as R.
  unfold toy.ImportPublic, toy.Export.
  rewrite byte_val_zbyte by lia.
  replace (toy.public_of k <? toy.modulus) with true; [reflexivity|].
  symmetry. apply Z.ltb_lt. unfold toy.modulus. lia.
Qed.

Lemma toy_dh_import_export : dh_import_export (P := toy.primitives).
Proof. intros k. exists (toy.public_of k). apply toy_ImportPublic_Export. Qed.

Lemma toy_shared_commutes (a b : N) :
  toy.public_of b ^ Z.of_N a mod toy.modulus
  = toy.public_of a ^ Z.of_N b mod toy.modulus.
Proof.
  unfold toy.public_of. rewrite !Z.mod_pow_l.
  rewrite <- !Z.pow_mul_r by lia. f_equal. f_equal. lia.
Qed.

Lemma toy_dh_agreement : dh_agreement (P := toy.primitives).
Proof.
  intros a b pa pb n w w' s Ha Hb HS v.
  change (toy.ImportPublic (toy.Export a) = Ok pa) in Ha.
  change (toy.ImportPublic (toy.Export b) = Ok pb) in Hb.
  change (toy.SharedKey a (Some pb) n w = (Ok s, w')) in HS.
  change (exists v', toy.SharedKey b (Some pa) n v = (Ok s, v')).
  rewrite toy_ImportPublic_Export in Ha, Hb.
  injection Ha as <-. injection Hb as <-.
  unfold toy.SharedKey in *.
  destruct (n <? 0); [discriminate HS|].
  injection HS as <- _. exists v.
  rewrite toy_shared_commutes. reflexivity.
Qed.


Lemma toy_cipher_correct : cipher_correct (P := toy.primitives).
Proof.
  intros symkey mackey m w ct w' H.
  change (toy.SealEncrypt symkey mackey m w = (Ok ct, w')) in H.
  change (toy.SealDecrypt symkey mackey ct = Ok m).
  unfold toy.SealEncrypt in H. injection H as <- _.
  unfold toy.SealDecrypt. cbv zeta.
  rewrite firstn_app, Nat.sub_diag, firstn_all, firstn_O, app_nil_r.
  rewrite bytes_eqb_refl.
  rewrite skipn_app, Nat.sub_diag, skipn_all, skipn_O. cbn [app].
  rewrite rev_involutive. reflexivity.
Qed.

End ToyFacts.

(** ** The functions on small inputs *)

Section Examples.

Example ConstantTimeByteEq_same :
  subtle.ConstantTimeByteEq x5a x5a = 1.
Proof. reflexivity. Qed.

Example ConstantTimeByteEq_other :
  subtle.ConstantTimeByteEq x5a x5b = 0.
Proof. reflexivity. Qed.

Example matchHash_shorter :
  hap.matchHash [x01; x02] [x01; x02; x03] = Ok false.
Proof. reflexivity. Qed.

Example matchHash_one_byte_off :
  hap.matchHash [x01; x02; x03] [x01; x07; x03] = Ok false.
Proof. reflexivity. Qed.

Example MatchPassword_nil_key :
  hash.MatchPassword unit tt toy.kdf hash.initial_vars [x70] None = Panic.
Proof. reflexivity. Qed.

Example MatchPassword_other_password :
  hash.MatchPassword unit tt toy.kdf hash.initial_vars [x71]
    (Some (hash.DeriveKeyWithSalt unit tt toy.kdf hash.initial_vars [x70] [x09]))
  = Ok false.
Proof. reflexivity. Qed.

Example slice_past_the_end :
  slice_to [x01; x02] 3 = Panic /\ slice_from [x01; x02] 3 = Panic.
Proof. split; reflexivity. Qed.

Example ImportPeerIdentity_garbage :
  ImportPeerIdentity (P := toy.primitives) (Some [x09]) = Ok None.
Proof. reflexivity. Qed.

Example PeerSessionKey_genuine :
  PeerSessionKey (P := toy.primitives) toy.unbound (Some x41)
    [x01; x0a; x00; x41; x0a]
  = ({| key := 3%N; signedKey := []; peer := Some 10 |}, Ok tt).
Proof. reflexivity. Qed.

Example Decrypt_truncated :
  fst (Decrypt (P := toy.primitives) toy.bound [x01; x05] 0%N)
  = Err "asn1: syntax error"%string.
Proof. reflexivity. Qed.

End Examples.

(** ** The theorems at concrete inputs *)

Section Witnesses.

Local Open Scope N_scope.

Lemma Decrypt_Encrypt_roundtrip_witness :
  exists A0 B0 A B env,
    NewSessionKey (P := toy.primitives) toy.alice 3 = (Ok (Some A0), 4)
    /\ NewSessionKey (P := toy.primitives) toy.bob 5 = (Ok (Some B0), 6)
    /\ PeerSessionKey A0 (Some x42) (SessionKey_Public B0) = (A, Ok tt)
    /\ PeerSessionKey B0 (Some x41) (SessionKey_Public A0) = (B, Ok tt)
    /\ Encrypt A toy.hello 7 = (Ok env, 8)
    /\ exists v', Decrypt B env 0 = (Ok toy.hello, v').
Proof.
  do 5 eexists.
  split; [reflexivity|]. split; [reflexivity|].
  split; [reflexivity|]. split; [reflexivity|].
  split; [reflexivity|].
  eapply (proj1 (Decrypt_Encrypt_roundtrip (P := toy.primitives)
                   toy.alice toy.bob 3 4 5 6 _ _ _ _ (Some x41) (Some x42)
                   toy_signed_export_codec toy_envelope_codec
                   toy_dh_import_export toy_dh_agreement toy_cipher_correct
                   eq_refl eq_refl eq_refl eq_refl toy.hello _ 7 8)).
  reflexivity.
Defined.

Lemma PeerSessionKey_rejects_bad_signature_witness :
  asn1_Unmarshal_signedDHKey (Primitives := toy.primitives) toy.forged
  = Ok ({| Public := [x05]; Signature := [x09] |}, [])
  /\ pks_Verify (Primitives := toy.primitives) (Some x41) [x05] [x09]
     = Err "crypto/rsa: verification error"%string
  /\ PeerSessionKey (P := toy.primitives) toy.unbound (Some x41) toy.forged
     = (toy.unbound, Err "crypto/rsa: verification error"%string).
Proof.
  split; [reflexivity|]. split; [reflexivity|].
  exact (proj1 (PeerSessionKey_rejects_bad_signature (P := toy.primitives)
                  toy.unbound (Some x41) toy.forged
                  {| Public := [x05]; Signature := [x09] |} []
                  "crypto/rsa: verification error"%string eq_refl eq_refl)).
Defined.



Lemma ImportPeerIdentity_panics_on_other_key_type_witness :
  x509_ParsePKIXPublicKey (Primitives := toy.primitives) [x01; x07] = Ok (pkix_ecdsa x07)
  /\ ImportPeerIdentity (P := toy.primitives) (Some [x01; x07]) = Panic.
Proof.
  split; [reflexivity|].
  apply (ImportPeerIdentity_panics_on_other_key_type (P := toy.primitives)
           [x01; x07] (pkix_ecdsa x07) eq_refl).
  intros k H. discriminate H.
Defined.




Lemma shared_secret_split_witness :
  exists symkey mackey,
    slice_to (repeat x07 48) (authsym_SymKeyLen (Primitives := toy.primitives))
    = Ok symkey
    /\ slice_from (repeat x07 48) (authsym_SymKeyLen (Primitives := toy.primitives))
       = Ok mackey
    /\ symkey ++ mackey = repeat x07 48
    /\ len symkey = 16%Z
    /\ len mackey = 32%Z.
Proof.
  destruct (shared_secret_split (P := toy.primitives) (repeat x07 48))
    as (symkey & mackey & Ht & Hf & Happ & Hs & Hm & _).
  - cbn. unfold sharedKeyLen. lia.
  - reflexivity.
  - exists symkey, mackey. repeat split; assumption.
Defined.

End Witnesses.

(** * Further properties of the code *)

(** ** Sessions: what the handshake changes, and what it needs *)

Section Handshake.

Context {P : Primitives}.

(** [PeerSessionKey] never touches the session's own key pair or its
    signed export, and a call that does not return nil leaves the whole
    session as it was. *)
Theorem PeerSessionKey_keeps_own_keys
    (skey : SessionKey) (peer_id : option rsa_PublicKey) (session : bytes) :
  key (fst (PeerSessionKey skey peer_id session)) = key skey
  /\ SessionKey_Public (fst (PeerSessionKey skey peer_id session))
     = SessionKey_Public skey
  /\ (snd (PeerSessionKey skey peer_id session) <> Ok tt ->
      fst (PeerSessionKey skey peer_id session) = skey).
Proof.
  unfold PeerSessionKey, SessionKey_Public.
  destruct (obind (asn1_Unmarshal_signedDHKey session) _) as [pub|e|];
    cbn [fst snd key signedKey]; repeat split; try reflexivity.
  intros H. destruct (H eq_refl).
Qed.

(** There is no one-shot guard: a call that succeeds gives the same session
    whatever peer value was stored before, so a second successful call
    replaces the first peer value. *)
Theorem PeerSessionKey_overwrites_peer
    (skey bound : SessionKey) (peer_id : option rsa_PublicKey)
    (session : bytes) :
  PeerSessionKey skey peer_id session = (bound, Ok tt) ->
  forall previous : option dhkam_PublicKey,
    PeerSessionKey
      {| key := key skey; signedKey := signedKey skey; peer := previous |}
      peer_id session
    = (bound, Ok tt).
Proof.
  unfold PeerSessionKey. intros H previous.
  destruct (obind (asn1_Unmarshal_signedDHKey session) _) as [pub|e|];
    try discriminate H.
  cbn [key signedKey]. exact H.
Qed.

(** What [NewSessionKey] exports decodes, carries a signature that verifies
    under the identity's public key, and encloses a public value that
    imports. *)
Lemma export_verifies (id : IdentityKey) (w w' : world) (theirs : SessionKey) :
  signed_export_codec -> signature_correct -> dh_import_export ->
  NewSessionKey id w = (Ok (Some theirs), w') ->
  exists sig rest pub,
    asn1_Unmarshal_signedDHKey (SessionKey_Public theirs)
    = Ok ({| Public := dhkam_Export (key theirs); Signature := sig |}, rest)
    /\ pks_Verify (Some (rsa_public (id_key id)))
         (dhkam_Export (key theirs)) sig = Ok tt
    /\ dhkam_ImportPublic (dhkam_Export (key theirs)) = Ok pub.
Proof.
  intros Hcodec Hsig Himp Hnew.
  apply NewSessionKey_built in Hnew as (w1 & sig & _ & HS & HM & _).
  apply Hcodec in HM as (rest & HU). apply Hsig in HS.
  destruct (Himp (key theirs)) as (pub & Hpub).
  exists sig, rest, pub. auto.
Qed.

(** Handshake completeness: a session accepts the export of a session that
    [NewSessionKey] built, when it is given the public key of the identity
    that built it, and stores the enclosed public value as its peer. *)
Theorem PeerSessionKey_accepts_genuine_export
    (id : IdentityKey) (w w' : world) (mine theirs : SessionKey) :
  signed_export_codec -> signature_correct -> dh_import_export ->
  NewSessionKey id w = (Ok (Some theirs), w') ->
  exists pub,
    dhkam_ImportPublic (dhkam_Export (key theirs)) = Ok pub
    /\ PeerSessionKey mine (Some (rsa_public (id_key id)))
         (SessionKey_Public theirs)
       = ({| key := key mine; signedKey := signedKey mine; peer := Some pub |},
          Ok tt).
Proof.
  intros Hcodec Hsig Himp Hnew.
  destruct (export_verifies id w w' theirs Hcodec Hsig Himp Hnew)
    as (sig & rest & pub & HU & HV & HI).
  exists pub. split; [exact HI|].
  unfold PeerSessionKey. rewrite HU. cbn [obind fst Public Signature].
  rewrite HV. cbn [obind]. rewrite HI. reflexivity.
Qed.

(** The receiver needs no handshake of its own: once the sender has bound
    itself to the receiver's export, the receiver, whose [peer] is still
    nil, decrypts what the sender encrypts. *)
Theorem Decrypt_needs_no_handshake
    (id : IdentityKey) (w0 w0' : world) (sender0 sender receiver : SessionKey)
    (peer_id : option rsa_PublicKey) :
  signed_export_codec -> envelope_codec ->
  dh_import_export -> dh_agreement -> cipher_correct ->
  NewSessionKey id w0 = (Ok (Some receiver), w0') ->
  PeerSessionKey sender0 peer_id (SessionKey_Public receiver)
  = (sender, Ok tt) ->
  peer receiver = None
  /\ forall (m env : bytes) (w w' : world),
       Encrypt sender m w = (Ok env, w') ->
       forall v, exists v', Decrypt receiver env v = (Ok m, v').
Proof.
  intros Hsigned Henv Himp Hagree Hcipher Hnew Hpeer.
  destruct (handshake_binds_peer id w0 w0' sender0 receiver sender peer_id
              Hsigned Hnew Hpeer) as (pub & Hpub & Hbound & _).
  split.
  - apply NewSessionKey_built in Hnew as (? & ? & _ & _ & _ & Hnone).
    exact Hnone.
  - intros m env w w' HE.
    exact (Decrypt_of_Encrypt sender receiver pub Henv Himp Hagree Hcipher
             Hpub Hbound m w env w' HE).
Qed.

(** An identity's exported public key imports to that public key. *)
Theorem ImportPeerIdentity_of_Public (id : IdentityKey) (cert : bytes) :
  identity_codec ->
  IdentityKey_Public id = Ok (Some cert) ->
  ImportPeerIdentity (Some cert) = Ok (Some (rsa_public (id_key id))).
Proof.
  intros Hcodec Hpub. unfold IdentityKey_Public in Hpub.
  destruct (x509_MarshalPKIXPublicKey (rsa_public (id_key id)))
    as [c|e|] eqn:HM; try discriminate Hpub.
  injection Hpub as <-. apply Hcodec in HM.
  unfold ImportPeerIdentity. rewrite HM. reflexivity.
Qed.

(** The whole exchange, with nothing assumed about the handshake: two
    identities that exported their public keys, two sessions built under
    them; each side imports the other's identity and runs [PeerSessionKey] on
    the other's export.  Both handshakes succeed, and from then on what
    either session encrypts the other decrypts. *)
Theorem sessions_of_two_identities_communicate
    (idA idB : IdentityKey) (certA certB : bytes)
    (wA wA' wB wB' : world) (A0 B0 : SessionKey) :
  identity_codec -> signature_correct ->
  signed_export_codec -> envelope_codec ->
  dh_import_export -> dh_agreement -> cipher_correct ->
  IdentityKey_Public idA = Ok (Some certA) ->
  IdentityKey_Public idB = Ok (Some certB) ->
  NewSessionKey idA wA = (Ok (Some A0), wA') ->
  NewSessionKey idB wB = (Ok (Some B0), wB') ->
  exists pidA pidB A B,
    ImportPeerIdentity (Some certA) = Ok pidA
    /\ ImportPeerIdentity (Some certB) = Ok pidB
    /\ PeerSessionKey A0 pidB (SessionKey_Public B0) = (A, Ok tt)
    /\ PeerSessionKey B0 pidA (SessionKey_Public A0) = (B, Ok tt)
    /\ forall (m env : bytes) (w w' : world),
         (Encrypt A m w = (Ok env, w') ->
          forall v, exists v', Decrypt B env v = (Ok m, v'))
         /\ (Encrypt B m w = (Ok env, w') ->
             forall v, exists v', Decrypt A env v = (Ok m, v')).
Proof.
  intros Hid Hsig Hsigned Henv Himp Hagree Hcipher HpA HpB HnA HnB.
  destruct (export_verifies idA wA wA' A0 Hsigned Hsig Himp HnA)
    as (sigA & restA & pubA & HUA & HVA & HIA).
  destruct (export_verifies idB wB wB' B0 Hsigned Hsig Himp HnB)
    as (sigB & restB & pubB & HUB & HVB & HIB).
  assert (HiA : ImportPeerIdentity (Some certA)
                = Ok (Some (rsa_public (id_key idA)))).
  { unfold IdentityKey_Public in HpA.
    destruct (x509_MarshalPKIXPublicKey (rsa_public (id_key idA)))
      as [c|e|] eqn:HM; try discriminate HpA.
    injection HpA as <-. apply Hid in HM.
    unfold ImportPeerIdentity. rewrite HM. reflexivity. }
  assert (HiB : ImportPeerIdentity (Some certB)
                = Ok (Some (rsa_public (id_key idB)))).
  { unfold IdentityKey_Public in HpB.
    destruct (x509_MarshalPKIXPublicKey (rsa_public (id_key idB)))
      as [c|e|] eqn:HM; try discriminate HpB.
    injection HpB as <-. apply Hid in HM.
    unfold ImportPeerIdentity. rewrite HM. reflexivity. }
  pose (A := {| key := key A0; signedKey := signedKey A0; peer := Some pubB |}
             : SessionKey).
  pose (B := {| key := key B0; signedKey := signedKey B0; peer := Some pubA |}
             : SessionKey).
  exists (Some (rsa_public (id_key idA))), (Some (rsa_public (id_key idB))),
    A, B.
  split; [exact HiA|]. split; [exact HiB|].
  split.
  { unfold PeerSessionKey. rewrite HUB. cbn [obind fst Public Signature].
    rewrite HVB. cbn [obind]. rewrite HIB. reflexivity. }
  split.
  { unfold PeerSessionKey. rewrite HUA. cbn [obind fst Public Signature].
    rewrite HVA. cbn [obind]. rewrite HIA. reflexivity. }
  intros m env w w'. split; intros HE v.
  - exact (Decrypt_of_Encrypt A B pubB Henv Himp Hagree Hcipher
             HIB eq_refl m w env w' HE v).
  - exact (Decrypt_of_Encrypt B A pubA Henv Himp Hagree Hcipher
             HIA eq_refl m w env w' HE v).
Qed.

(** Neither [Encrypt] nor [Decrypt] checks the length of the derived
    secret: when it is shorter than [authsym.SymKeyLen], cutting it panics;
    no error is returned. *)
Theorem short_secret_panics (skey : SessionKey) (shared : bytes) :
  len shared < authsym_SymKeyLen ->
  (forall (m : bytes) (w w1 w2 : world) (eph : dhkam_PrivateKey),
      dhkam_GenerateKey w = (Ok eph, w1) ->
      dhkam_SharedKey eph (peer skey) sharedKeyLen w1 = (Ok shared, w2) ->
      Encrypt skey m w = (Panic, w2))
  /\ (forall (in_ : bytes) (w w1 : world) (e : ephem) (rest : bytes)
             (pub : dhkam_PublicKey),
         asn1_Unmarshal_ephem in_ = Ok (e, rest) ->
         dhkam_ImportPublic (Pub e) = Ok pub ->
         dhkam_SharedKey (key skey) (Some pub) sharedKeyLen w
         = (Ok shared, w1) ->
         Decrypt skey in_ w = (Panic, w1)).
Proof.
  intros Hshort.
  assert (Hcut : slice_to shared authsym_SymKeyLen = Panic).
  { unfold slice_to.
    replace (authsym_SymKeyLen <=? len shared) with false
      by (symmetry; apply Z.leb_gt; exact Hshort).
    rewrite andb_false_r. reflexivity. }
  split.
  - intros m w w1 w2 eph HG HS. unfold Encrypt, bind, lift.
    rewrite HG, HS, Hcut. reflexivity.
  - intros in_ w w1 e rest pub HU HI HS. unfold Decrypt, bind, lift.
    rewrite HU. cbn [fst]. rewrite HI, HS, Hcut. reflexivity.
Qed.

End Handshake.

(** ** Salts and stored keys (package hash) *)

Section Salts.

Variable HashAlgo : Type.
Variable DefaultAlgo_New : HashAlgo.
Variable pbkdf2_Key : bytes -> bytes -> Z -> Z -> HashAlgo -> bytes.
Variable W : Type.
Variable rand_Read : Z -> W -> (bytes * Z * option error) * W.

Local Abbreviation DeriveKeyWithSalt vars :=
  (hash.DeriveKeyWithSalt HashAlgo DefaultAlgo_New pbkdf2_Key vars).
Local Abbreviation MatchPassword vars :=
  (hash.MatchPassword HashAlgo DefaultAlgo_New pbkdf2_Key vars).
Local Abbreviation DeriveKey vars :=
  (hash.DeriveKey HashAlgo DefaultAlgo_New pbkdf2_Key vars W rand_Read).
Local Abbreviation generateSalt := (hash.generateSalt W rand_Read).

Lemma length_overwrite (data buf : bytes) :
  List.length (overwrite data buf) = List.length buf.
Proof.
  unfold overwrite. rewrite length_firstn, length_app, length_skipn. lia.
Qed.

Lemma make_bytes_length (n : Z) :
  0 <= n -> exists b, make_bytes n = Ok b /\ len b = n.
Proof.
  intros Hn. unfold make_bytes.
  replace (n <? 0) with false by (symmetry; apply Z.ltb_ge; exact Hn).
  eexists. split; [reflexivity|]. unfold len. rewrite repeat_length. lia.
Qed.

(** What [generateSalt] returns, in terms of what the source reported. *)
Lemma generateSalt_cases (chars : Z) (w : W) :
  0 <= chars ->
  exists salt,
    generateSalt chars w = (Ok salt, snd (rand_Read chars w))
    /\ (salt = [] \/ len salt = chars)
    /\ (snd (fst (rand_Read chars w)) <> None -> salt = [])
    /\ (snd (fst (fst (rand_Read chars w))) < chars -> salt = [])
    /\ (snd (fst (rand_Read chars w)) = None ->
        chars <= snd (fst (fst (rand_Read chars w))) -> len salt = chars).
Proof.
  intros Hc. unfold hash.generateSalt.
  destruct (make_bytes_length chars Hc) as (buf & -> & Hl). rewrite Hl.
  destruct (rand_Read chars w) as [[[data nRead] err] w']. cbn [fst snd].
  assert (Hfull : len (overwrite data buf) = chars)
    by (unfold len in *; rewrite length_overwrite; exact Hl).
  destruct err as [e|].
  - exists []. repeat split; auto; intros; congruence.
  - destruct (Z.ltb_spec nRead chars).
    + exists []. repeat split; auto; intros; lia.
    + exists (overwrite data buf). repeat split; auto; intros; lia || congruence.
Qed.

(** [generateSalt] returns either exactly [chars] bytes or the empty slice,
    never a partly filled one: empty when the source reported an error or
    fewer bytes than asked for.  A negative length panics. *)
Theorem generateSalt_all_or_empty (chars : Z) (w : W) :
  (0 <= chars ->
   exists salt w',
     generateSalt chars w = (Ok salt, w')
     /\ (salt = [] \/ len salt = chars)
     /\ (snd (fst (rand_Read chars w)) <> None -> salt = [])
     /\ (snd (fst (fst (rand_Read chars w))) < chars -> salt = []))
  /\ (chars < 0 -> generateSalt chars w = (Panic, w)).
Proof.
  split.
  - intros Hc. destruct (generateSalt_cases chars w Hc)
      as (salt & Hg & Hlen & Herr & Hshort & _).
    exists salt, (snd (rand_Read chars w)). auto.
  - intros Hneg. unfold hash.generateSalt, make_bytes.
    replace (chars <? 0) with true by (symmetry; apply Z.ltb_lt; exact Hneg).
    reflexivity.
Qed.

(** [DeriveKey] has no way to report a failed source of randomness: it
    then returns the key derived with the empty salt. *)
Theorem DeriveKey_without_randomness (vars : hash.Vars) (password : bytes)
    (w : W) :
  0 <= hash.SaltLength vars ->
  snd (fst (rand_Read (hash.SaltLength vars) w)) <> None
  \/ snd (fst (fst (rand_Read (hash.SaltLength vars) w))) < hash.SaltLength vars ->
  DeriveKey vars password w
  = (Ok (DeriveKeyWithSalt vars password []),
     snd (rand_Read (hash.SaltLength vars) w)).
Proof.
  intros Hc Hfail. unfold hash.DeriveKey.
  destruct (generateSalt_cases (hash.SaltLength vars) w Hc)
    as (salt & -> & _ & Herr & Hshort & _).
  destruct Hfail as [H|H]; [rewrite (Herr H) | rewrite (Hshort H)]; reflexivity.
Qed.

(** Whatever the source of randomness does, [DeriveKey] returns a stored
    key that [MatchPassword] accepts for the same password, with a salt of
    [SaltLength] bytes or none. *)
Theorem MatchPassword_accepts_DeriveKey (vars : hash.Vars) (password : bytes)
    (w : W) :
  0 <= hash.SaltLength vars ->
  exists pk w',
    DeriveKey vars password w = (Ok pk, w')
    /\ (hash.Salt pk = [] \/ len (hash.Salt pk) = hash.SaltLength vars)
    /\ MatchPassword vars password (Some pk) = Ok true.
Proof.
  intros Hc. unfold hash.DeriveKey.
  destruct (generateSalt_cases (hash.SaltLength vars) w Hc)
    as (salt & -> & Hlen & _).
  do 2 eexists. split; [reflexivity|]. split; [exact Hlen|].
  apply MatchPassword_true_iff. reflexivity.
Qed.

(** On a stored key that is not nil [MatchPassword] never panics, and a
    stored key whose length is not that of the derived key is refused. *)
Theorem MatchPassword_refuses_other_length (vars : hash.Vars)
    (password : bytes) (pk : hash.PasswordKey) :
  (MatchPassword vars password (Some pk) = Ok true
   \/ MatchPassword vars password (Some pk) = Ok false)
  /\ (len (hash.Key (DeriveKeyWithSalt vars password (hash.Salt pk)))
      <> len (hash.Key pk) ->
      MatchPassword vars password (Some pk) = Ok false).
Proof.
  rewrite MatchPassword_decides. split.
  - destruct (_ && _); [left | right]; reflexivity.
  - intros Hne. apply Z.eqb_neq in Hne. rewrite Hne, andb_false_r. reflexivity.
Qed.

(** Matching reads the package variable [KeySize] again: a key stored while
    [KeySize] had one value is refused once it has another, the password
    being the right one. *)
Theorem MatchPassword_after_KeySize_change (stored current : hash.Vars)
    (password salt : bytes) :
  kdf_length pbkdf2_Key ->
  0 <= hash.KeySize stored -> 0 <= hash.KeySize current ->
  hash.KeySize stored <> hash.KeySize current ->
  MatchPassword current password
    (Some (DeriveKeyWithSalt stored password salt))
  = Ok false.
Proof.
  intros Hlen Hs Hc Hne. rewrite MatchPassword_decides.
  cbn [hash.DeriveKeyWithSalt hash.Key hash.Salt].
  unfold hash.DeriveKeyWithSalt. cbn [hash.Key].
  rewrite !Hlen by assumption.
  replace (hash.KeySize current =? hash.KeySize stored) with false
    by (symmetry; apply Z.eqb_neq; congruence).
  rewrite andb_false_r. reflexivity.
Qed.

End Salts.

(** ** The exchange over a connection (package hap) *)

Lemma Validate_result_cases (keccak512 : bytes -> bytes)
    (password challenge response : bytes) :
  hap.matchHash (hap.Response keccak512 password challenge) response = Ok true
  \/ hap.matchHash (hap.Response keccak512 password challenge) response
     = Ok false.
Proof.
  rewrite matchHash_decides. destruct (_ && _); [left | right]; reflexivity.
Qed.

Section Exchange.

Variable keccak512 : bytes -> bytes.
Variable St : Type.
Variable Conn : Type.
Variable rand_Int : Z -> St -> outcome Z * St.
Variable fmt_Println : string -> error -> St -> St.
Variable conn_Read : Conn -> Z -> St -> (bytes * Z * option error) * St.
Variable conn_Write : Conn -> bytes -> St -> (Z * option error) * St.

Local Abbreviation generateChallenge :=
  (hap.generateChallenge St rand_Int fmt_Println).
Local Abbreviation Challenge :=
  (hap.Challenge keccak512 St Conn rand_Int fmt_Println conn_Read conn_Write).
Local Abbreviation Authenticate :=
  (hap.Authenticate keccak512 St Conn conn_Read conn_Write).

(** Going through [int64] and back to [uint64] loses nothing, also above
    [math.MaxInt64], where the [int64] is negative. *)
Lemma to_uint64_big_Int64 (n : Z) :
  0 <= n < 2 ^ 64 -> hap.to_uint64 (hap.big_Int64 n) = n.
Proof.
  intros Hn. unfold hap.to_uint64, hap.big_Int64, hap.wrap_int64. cbv zeta.
  replace (n <? 0) with false by (symmetry; apply Z.ltb_ge; lia).
  rewrite Z.abs_eq by lia. rewrite (Z.mod_small n) by lia.
  destruct (Z_lt_le_dec n (2 ^ 63)) as [Hlo|Hhi].
  - rewrite (Z.mod_small (n + 2 ^ 63)) by lia.
    replace (n + 2 ^ 63 - 2 ^ 63) with n by lia. apply Z.mod_small. lia.
  - replace ((n + 2 ^ 63) mod 2 ^ 64) with (n - 2 ^ 63).
    + symmetry. apply (Z.mod_unique _ _ (-1)); lia.
    + apply (Z.mod_unique _ _ 1); lia.
Qed.

Lemma digits_inj (d : Decimal.uint) :
  forall d', hap.digits d = hap.digits d' -> d = d'.
Proof.
  induction d; intros d' H; destruct d'; simpl in H;
    try discriminate H; try reflexivity;
    injection H as H; f_equal; apply IHd; exact H.
Qed.

Lemma Sprintf_d_inj (n n' : Z) :
  0 <= n -> 0 <= n' -> hap.Sprintf_d n = hap.Sprintf_d n' -> n = n'.
Proof.
  unfold hap.Sprintf_d. intros Hn Hn' H.
  apply digits_inj, DecimalN.Unsigned.to_uint_inj in H. lia.
Qed.

(** [generateChallenge] returns the decimal numeral of the number drawn,
    for every number below twice [math.MaxInt64]; different numbers give
    different challenges; and a failing source ends the process with status
    1 after printing the error. *)
Theorem generateChallenge_renders_the_draw :
  (forall (s s1 : St) (n : Z),
      rand_Int (hap.MaxInt64 * 2) s = (Ok n, s1) ->
      0 <= n < hap.MaxInt64 * 2 ->
      generateChallenge s = (hap.Continue (hap.Sprintf_d n), s1))
  /\ (forall n n' : Z,
         0 <= n -> 0 <= n' -> hap.Sprintf_d n = hap.Sprintf_d n' -> n = n')
  /\ (forall (s s1 : St) (e : error),
         rand_Int (hap.MaxInt64 * 2) s = (Err e, s1) ->
         generateChallenge s
         = (hap.Exited 1,
            fmt_Println "[!] failed to generate random number:"%string e s1)).
Proof.
  split; [|split].
  - intros s s1 n HR Hn. unfold hap.generateChallenge. cbv zeta.
    rewrite HR. rewrite to_uint64_big_Int64; [reflexivity|].
    unfold hap.MaxInt64 in Hn. lia.
  - exact Sprintf_d_inj.
  - intros s s1 e HR. unfold hap.generateChallenge. cbv zeta.
    rewrite HR. reflexivity.
Qed.

Lemma Read_length (conn : Conn) (buf : bytes) (s : St) :
  List.length (fst (fst (fst (hap.Read St Conn conn_Read conn buf s))))
  = List.length buf.
Proof.
  unfold hap.Read.
  destruct (conn_Read conn (len buf) s) as [[[data n] err] s'].
  cbn [fst]. apply length_overwrite.
Qed.

Lemma slice_to_in_range (buf : bytes) (n : Z) :
  0 <= n <= len buf -> slice_to buf n = Ok (firstn (Z.to_nat n) buf).
Proof.
  intros Hn. unfold slice_to.
  replace (0 <=? n) with true by (symmetry; apply Z.leb_le; lia).
  replace (n <=? len buf) with true by (symmetry; apply Z.leb_le; lia).
  reflexivity.
Qed.

(** The error [Challenge] returns does not tell whether the peer
    authenticated: once the challenge was sent and a reply was read, it
    returns nil both when the reply is the expected response and when it is
    not; the only difference is that "ok" is sent in the first case. *)
Theorem Challenge_returns_nil_either_way
    (conn : Conn) (password challenge data : bytes) (s s1 s2 s3 : St)
    (k n : Z) :
  generateChallenge s = (hap.Continue challenge, s1) ->
  conn_Write conn challenge s1 = ((k, None), s2) ->
  conn_Read conn hap.ResponseLength s2 = ((data, n, None), s3) ->
  0 <= n <= hap.ResponseLength ->
  (firstn (Z.to_nat n) (overwrite data (repeat x00 128))
   = hap.Response keccak512 password challenge ->
   Challenge conn password s
   = (hap.Continue None, snd (conn_Write conn [x6f; x6b] s3)))
  /\ (firstn (Z.to_nat n) (overwrite data (repeat x00 128))
      <> hap.Response keccak512 password challenge ->
      Challenge conn password s = (hap.Continue None, s3)).
Proof.
  intros HG HW HR Hn.
  assert (Hrun :
    Challenge conn password s
    = match hap.Validate keccak512 password challenge
              (firstn (Z.to_nat n) (overwrite data (repeat x00 128))) with
      | Ok true => (hap.Continue None, snd (conn_Write conn [x6f; x6b] s3))
      | Ok false => (hap.Continue None, s3)
      | _ => (hap.Panicked, s3)
      end).
  { unfold hap.Challenge. rewrite HG, HW.
    change (make_bytes hap.ResponseLength) with (Ok (repeat x00 128)).
    unfold hap.Read. change (len (repeat x00 128)) with hap.ResponseLength.
    rewrite HR. rewrite slice_to_in_range.
    - destruct (hap.Validate _ _ _ _) as [[|]| |]; try reflexivity.
      destruct (conn_Write conn [x6f; x6b] s3). reflexivity.
    - unfold len. rewrite length_overwrite. exact Hn. }
  rewrite Hrun. unfold hap.Validate. cbv zeta. split; intros H.
  - rewrite (proj2 (matchHash_true_iff _ _) (eq_sym H)). reflexivity.
  - destruct (Validate_result_cases keccak512 password challenge
                (firstn (Z.to_nat n) (overwrite data (repeat x00 128))))
      as [Ht|Hf].
    + apply matchHash_true_iff in Ht. congruence.
    + rewrite Hf. reflexivity.
Qed.

(** [Authenticate] answers the challenge it read with the response for it
    and then returns the error of its last read and nothing else: what the
    peer sent back, "ok" or not, is never looked at. *)
Theorem Authenticate_ignores_the_reply
    (conn : Conn) (password data : bytes) (s s1 s2 : St) (k n : Z) :
  conn_Read conn hap.ResponseLength s = ((data, n, None), s1) ->
  0 <= n <= hap.ResponseLength ->
  conn_Write conn
    (hap.Response keccak512 password
       (firstn (Z.to_nat n) (overwrite data (repeat x00 128)))) s1
  = ((k, None), s2) ->
  forall (reply : bytes) (n2 : Z) (err2 : option error) (s3 : St),
    conn_Read conn 2 s2 = ((reply, n2, err2), s3) ->
    Authenticate conn password s = (hap.Continue err2, s3).
Proof.
  intros HR Hn HW reply n2 err2 s3 HR2.
  unfold hap.Authenticate.
  change (make_bytes hap.ResponseLength) with (Ok (repeat x00 128)).
  unfold hap.Read. change (len (repeat x00 128)) with hap.ResponseLength.
  rewrite HR. rewrite slice_to_in_range
    by (unfold len; rewrite length_overwrite; exact Hn).
  rewrite HW.
  change (make_bytes 2) with (Ok [x00; x00]). cbv beta iota.
  change (len [x00; x00]) with 2. rewrite HR2. reflexivity.
Qed.

End Exchange.

(** The response is the hash of password and challenge written one after
    the other, with nothing between them: a response also validates for
    every other way of cutting the same bytes into a password and a
    challenge. *)
Theorem Validate_ignores_the_boundary (keccak512 : bytes -> bytes)
    (password challenge password' challenge' : bytes) :
  password ++ challenge = password' ++ challenge' ->
  hap.Validate keccak512 password' challenge'
    (hap.Response keccak512 password challenge)
  = Ok true.
Proof.
  intros H. unfold hap.Validate. cbv zeta. apply matchHash_true_iff.
  unfold hap.Response, hap.hash. cbv zeta. rewrite H. reflexivity.
Qed.

(** ** The further properties at concrete inputs *)

Section MoreWitnesses.

Lemma toy_signature_correct : signature_correct (P := toy.primitives).
Proof.
  intros k m w sig w' H.
  change (toy.Sign k m w = (Ok sig, w')) in H.
  change (toy.Verify (Some k) m sig = Ok tt).
  unfold toy.Sign in H. injection H as <- _.
  unfold toy.Verify. rewrite bytes_eqb_refl. reflexivity.
Qed.

Lemma toy_identity_codec : identity_codec (P := toy.primitives).
Proof.
  intros k cert H. change (Ok [x00; k] = Ok cert) in H. injection H as <-.
  reflexivity.
Qed.

Lemma toy_kdf_length : kdf_length toy.kdf.
Proof.
  intros password salt iter keyLen h Hk. unfold toy.kdf, len.
  rewrite length_firstn, length_app, repeat_length. lia.
Qed.

Local Open Scope N_scope.

Lemma PeerSessionKey_overwrites_peer_witness :
  PeerSessionKey (P := toy.primitives) toy.unbound (Some x41)
    [x01; x0a; x00; x41; x0a]
  = ({| key := 3; signedKey := []; peer := Some 10%Z |}, Ok tt)
  /\ PeerSessionKey (P := toy.primitives) toy.bound (Some x41)
       [x01; x0a; x00; x41; x0a]
     = ({| key := 3; signedKey := []; peer := Some 10%Z |}, Ok tt).
Proof.
  split; [reflexivity|].
  exact (PeerSessionKey_overwrites_peer (P := toy.primitives) toy.unbound
           {| key := 3; signedKey := []; peer := Some 10%Z |} (Some x41)
           [x01; x0a; x00; x41; x0a] eq_refl (Some (toy.public_of 5))).
Defined.

Lemma PeerSessionKey_accepts_genuine_export_witness :
  exists theirs pub,
    NewSessionKey (P := toy.primitives) toy.bob 5 = (Ok (Some theirs), 6)
    /\ PeerSessionKey (P := toy.primitives) toy.unbound (Some x42)
         (SessionKey_Public theirs)
       = ({| key := 3; signedKey := []; peer := Some pub |}, Ok tt).
Proof.
  eexists.
  destruct (PeerSessionKey_accepts_genuine_export (P := toy.primitives)
              toy.bob 5 6 toy.unbound _
              toy_signed_export_codec toy_signature_correct
              toy_dh_import_export eq_refl) as (pub & _ & H).
  exists pub. split; [reflexivity | exact H].
Defined.

Lemma Decrypt_needs_no_handshake_witness :
  exists receiver sender env,
    NewSessionKey (P := toy.primitives) toy.bob 5 = (Ok (Some receiver), 6)
    /\ PeerSessionKey (P := toy.primitives) toy.unbound (Some x42)
         (SessionKey_Public receiver) = (sender, Ok tt)
    /\ peer receiver = None
    /\ Encrypt sender toy.hello 7 = (Ok env, 8)
    /\ exists v', Decrypt receiver env 0 = (Ok toy.hello, v').
Proof.
  do 3 eexists.
  split; [reflexivity|]. split; [reflexivity|]. split; [reflexivity|].
  split; [reflexivity|].
  eapply (proj2 (Decrypt_needs_no_handshake (P := toy.primitives)
                   toy.bob 5 6 toy.unbound _ _ (Some x42)
                   toy_signed_export_codec toy_envelope_codec
                   toy_dh_import_export toy_dh_agreement toy_cipher_correct
                   eq_refl eq_refl) toy.hello _ 7 8).
  reflexivity.
Defined.

Lemma ImportPeerIdentity_of_Public_witness :
  IdentityKey_Public (P := toy.primitives) toy.alice = Ok (Some [x00; x41])
  /\ ImportPeerIdentity (P := toy.primitives) (Some [x00; x41])
     = Ok (Some x41).
Proof.
  split; [reflexivity|].
  exact (ImportPeerIdentity_of_Public (P := toy.primitives) toy.alice
           [x00; x41] toy_identity_codec eq_refl).
Defined.

Lemma sessions_of_two_identities_communicate_witness :
  exists A0 B0 A B env,
    NewSessionKey (P := toy.primitives) toy.alice 3 = (Ok (Some A0), 4)
    /\ NewSessionKey (P := toy.primitives) toy.bob 5 = (Ok (Some B0), 6)
    /\ PeerSessionKey A0 (Some x42) (SessionKey_Public B0) = (A, Ok tt)
    /\ PeerSessionKey B0 (Some x41) (SessionKey_Public A0) = (B, Ok tt)
    /\ Encrypt B toy.hello 9 = (Ok env, 10)
    /\ exists v', Decrypt A env 0 = (Ok toy.hello, v').
Proof.
  pose (A0 := {| key := 3; signedKey := [x01; x0a; x00; x41; x0a];
                 peer := None |} : SessionKey (P := toy.primitives)).
  pose (B0 := {| key := 5; signedKey := [x01; x14; x00; x42; x14];
                 peer := None |} : SessionKey (P := toy.primitives)).
  destruct (sessions_of_two_identities_communicate (P := toy.primitives)
              toy.alice toy.bob [x00; x41] [x00; x42] 3 4 5 6 A0 B0
              toy_identity_codec toy_signature_correct
              toy_signed_export_codec toy_envelope_codec
              toy_dh_import_export toy_dh_agreement toy_cipher_correct
              eq_refl eq_refl eq_refl eq_refl)
    as (pidA & pidB & A & B & HiA & HiB & HA & HB & Hround).
  injection HiA as <-. injection HiB as <-.
  exists A0, B0, A, B.
  assert (EB : B = {| key := 5; signedKey := [x01; x14; x00; x42; x14];
                      peer := Some 10%Z |}).
  { cbv in HB. injection HB as <-. reflexivity. }
  eexists.
  split; [reflexivity|]. split; [reflexivity|].
  split; [exact HA|]. split; [exact HB|].
  split; [rewrite EB; reflexivity|].
  apply (proj2 (Hround toy.hello _ 9 10)).
  rewrite EB. reflexivity.
Defined.

Lemma short_secret_panics_witness :
  (len (repeat x14 48) < 64)%Z
  /\ Encrypt (P := with_SymKeyLen toy.primitives 64) toy.bound toy.hello 1
     = (Panic, 2).
Proof.
  assert (H : (len (repeat x14 48) < 64)%Z) by reflexivity.
  split; [exact H|].
  exact (proj1 (short_secret_panics (P := with_SymKeyLen toy.primitives 64)
                  toy.bound (repeat x14 48) H)
           toy.hello 1 2 2 1 eq_refl eq_refl).
Defined.

Lemma Decrypt_returned_witness :
  exists env,
    Encrypt (P := toy.primitives) toy.bound toy.hello 1 = (Ok env, 2)
    /\ Decrypt (P := toy.primitives) toy.receiver env 0 = (Ok toy.hello, 0)
    /\ exists e rest,
         asn1_Unmarshal_ephem (Primitives := toy.primitives) env = Ok (e, rest)
         /\ Pub e = [x05].
Proof.
  eexists. split; [reflexivity|].
  match goal with
  | |- ?D = _ /\ _ => assert (HD : D = (Ok toy.hello, 0)) by reflexivity
  end.
  split; [exact HD|].
  destruct (Decrypt_returned (P := toy.primitives) toy.receiver _ toy.hello 0 0
              HD)
    as (e & rest & pub & shared & symkey & mackey & HU & _).
  exists e, rest. split; [exact HU|].
  cbv in HU. injection HU as <- _. reflexivity.
Defined.

Local Open Scope Z_scope.

Lemma DeriveKey_without_randomness_witness :
  toy.rand_Read 128 0 = (([], 0, Some "unexpected EOF"%string), 0)
  /\ hash.DeriveKey unit tt toy.kdf hash.initial_vars Z toy.rand_Read [x70] 0
     = (Ok (hash.DeriveKeyWithSalt unit tt toy.kdf hash.initial_vars [x70] []),
        0).
Proof.
  split; [reflexivity|].
  apply (DeriveKey_without_randomness unit tt toy.kdf Z toy.rand_Read
           hash.initial_vars [x70] 0).
  - discriminate.
  - left. discriminate.
Defined.

Lemma MatchPassword_accepts_DeriveKey_witness :
  exists pk,
    hash.DeriveKey unit tt toy.kdf hash.initial_vars Z toy.rand_Read [x70] 7
    = (Ok pk, 8)
    /\ len (hash.Salt pk) = 128
    /\ hash.MatchPassword unit tt toy.kdf hash.initial_vars [x70] (Some pk)
       = Ok true.
Proof.
  destruct (MatchPassword_accepts_DeriveKey unit tt toy.kdf Z toy.rand_Read
              hash.initial_vars [x70] 7)
    as (pk & w' & HD & _ & HM).
  - discriminate.
  - exists pk. cbv in HD. injection HD as <- <-.
    split; [reflexivity|]. split; [reflexivity | exact HM].
Defined.

Lemma MatchPassword_after_KeySize_change_witness :
  hash.MatchPassword unit tt toy.kdf
    {| hash.IterationCount := 16384; hash.KeySize := 64;
       hash.SaltLength := 128 |}
    [x70]
    (Some (hash.DeriveKeyWithSalt unit tt toy.kdf hash.initial_vars
             [x70] [x09]))
  = Ok false.
Proof.
  apply (MatchPassword_after_KeySize_change unit tt toy.kdf
           hash.initial_vars
           {| hash.IterationCount := 16384; hash.KeySize := 64;
              hash.SaltLength := 128 |}
           [x70] [x09] toy_kdf_length); discriminate.
Defined.

Lemma Challenge_returns_nil_either_way_witness :
  hap.Challenge toy.digest toy.net unit toy.rand_Int toy.Println
    toy.conn_Read toy.conn_Write tt [x70; x77]
    {| toy.next_random := 41;
       toy.arriving := [hap.Response toy.digest [x70; x77] [x34; x31]];
       toy.sent := [] |}
  = (hap.Continue None,
     {| toy.next_random := 42; toy.arriving := [];
        toy.sent := [[x6f; x6b]; [x34; x31]] |})
  /\ hap.Challenge toy.digest toy.net unit toy.rand_Int toy.Println
       toy.conn_Read toy.conn_Write tt [x70; x77]
       {| toy.next_random := 41; toy.arriving := [[x6e; x6f]];
          toy.sent := [] |}
     = (hap.Continue None,
        {| toy.next_random := 42; toy.arriving := [];
           toy.sent := [[x34; x31]] |}).
Proof.
  split.
  - refine (proj1 (Challenge_returns_nil_either_way toy.digest toy.net unit
                     toy.rand_Int toy.Println toy.conn_Read toy.conn_Write
                     tt [x70; x77] [x34; x31]
                     (hap.Response toy.digest [x70; x77] [x34; x31])
                     {| toy.next_random := 41;
                        toy.arriving :=
                          [hap.Response toy.digest [x70; x77] [x34; x31]];
                        toy.sent := [] |}
                     {| toy.next_random := 42;
                        toy.arriving :=
                          [hap.Response toy.digest [x70; x77] [x34; x31]];
                        toy.sent := [] |}
                     {| toy.next_random := 42;
                        toy.arriving :=
                          [hap.Response toy.digest [x70; x77] [x34; x31]];
                        toy.sent := [[x34; x31]] |}
                     {| toy.next_random := 42; toy.arriving := [];
                        toy.sent := [[x34; x31]] |}
                     2 5 eq_refl eq_refl eq_refl _) eq_refl).
    split; discriminate.
  - refine (proj2 (Challenge_returns_nil_either_way toy.digest toy.net unit
                     toy.rand_Int toy.Println toy.conn_Read toy.conn_Write
                     tt [x70; x77] [x34; x31] [x6e; x6f]
                     {| toy.next_random := 41; toy.arriving := [[x6e; x6f]];
                        toy.sent := [] |}
                     {| toy.next_random := 42; toy.arriving := [[x6e; x6f]];
                        toy.sent := [] |}
                     {| toy.next_random := 42; toy.arriving := [[x6e; x6f]];
                        toy.sent := [[x34; x31]] |}
                     {| toy.next_random := 42; toy.arriving := [];
                        toy.sent := [[x34; x31]] |}
                     2 2 eq_refl eq_refl eq_refl _) _).
    + split; discriminate.
    + discriminate.
Defined.

Lemma Validate_ignores_the_boundary_witness :
  hap.Validate toy.digest [x70; x77] [x31; x32; x33]
    (hap.Response toy.digest [x70; x77; x31] [x32; x33])
  = Ok true.
Proof.
  exact (Validate_ignores_the_boundary toy.digest [x70; x77; x31] [x32; x33]
           [x70; x77] [x31; x32; x33] eq_refl).
Defined.

Lemma Authenticate_ignores_the_reply_witness :
  hap.Authenticate toy.digest toy.net unit toy.conn_Read toy.conn_Write
    tt [x70; x77]
    {| toy.next_random := 0; toy.arriving := [[x34; x31]; [x6e; x6f]];
       toy.sent := [] |}
  = (hap.Continue None,
     {| toy.next_random := 0; toy.arriving := [];
        toy.sent := [hap.Response toy.digest [x70; x77] [x34; x31]] |}).
Proof.
  refine (Authenticate_ignores_the_reply toy.digest toy.net unit
            toy.conn_Read toy.conn_Write tt [x70; x77] [x34; x31]
            {| toy.next_random := 0;
               toy.arriving := [[x34; x31]; [x6e; x6f]]; toy.sent := [] |}
            {| toy.next_random := 0; toy.arriving := [[x6e; x6f]];
               toy.sent := [] |}
            {| toy.next_random := 0; toy.arriving := [[x6e; x6f]];
               toy.sent := [hap.Response toy.digest [x70; x77] [x34; x31]] |}
            5 2 eq_refl _ eq_refl [x6e; x6f] 2 None
            {| toy.next_random := 0; toy.arriving := [];
               toy.sent := [hap.Response toy.digest [x70; x77] [x34; x31]] |}
            eq_refl).
  split; discriminate.
Defined.

End MoreWitnesses.
